(** * remove-x-user-id.py: the header stripper and its command-line driver

    The script rewrites a source file with four [re.sub] calls and writes
    the file back when the text changed.  This development embeds

    - Python text as a list of code points;
    - the fragment of Python's [re] that the four patterns use (literals,
      greedy [\s*], greedy [?], one capture group), as a backtracking
      matcher that lists the possible match lengths in the order in which
      the engine tries them;
    - [re.sub] as the left-to-right scan that replaces every
      non-overlapping leftmost match;
    - [remove_x_user_id_headers] and [main] over these. *)

From Stdlib Require Import String Ascii List NArith Arith Lia Bool.
Import ListNotations.

Set Implicit Arguments.

(** ** Text *)

(** A Python [str] is a sequence of Unicode code points. *)
Definition char := N.
Definition str := list char.

(** The code points of a literal written in ASCII. *)
Definition lit (s : string) : str :=
  map N_of_ascii (list_ascii_of_string s).

Definition nl : str := [10%N].

(** [\s] on a [str] pattern: the characters for which [str.isspace] holds
    (CPython's [Py_UNICODE_ISSPACE]). *)
Definition is_space (c : char) : bool :=
  (((9 <=? c) && (c <=? 13)) || ((28 <=? c) && (c <=? 32))
   || (c =? 133) || (c =? 160) || (c =? 5760)
   || ((8192 <=? c) && (c <=? 8202))
   || (c =? 8232) || (c =? 8233) || (c =? 8239) || (c =? 8287)
   || (c =? 12288))%N.

Fixpoint prefixb (l s : str) : bool :=
  match l, s with
  | [], _ => true
  | a :: l', b :: s' => (a =? b)%N && prefixb l' s'
  | _ :: _, [] => false
  end.

(** [infixb l s]: [l] occurs somewhere in [s] (Python's [l in s]). *)
Fixpoint infixb (l s : str) : bool :=
  prefixb l s || match s with [] => false | _ :: s' => infixb l s' end.

(** ** The regular expressions of the script *)

Module Re.

Inductive regex : Type :=
| Lit (l : str)            (* a run of literal characters *)
| Spaces                   (* \s*   greedy *)
| Opt (r : regex)          (* (?:r)?  greedy *)
| Seq (r1 r2 : regex).     (* r1 r2 *)

(** Lengths that greedy [\s*] can consume at the head of [s], longest
    first. *)
Fixpoint spaces (s : str) : list nat :=
  match s with
  | c :: s' => if is_space c then map S (spaces s') ++ [0] else [0]
  | [] => [0]
  end.

(** [matches r s]: the lengths of the prefixes of [s] that [r] matches,
    in the order in which the backtracking engine finds them.  The head
    of the list is what [re.match] returns. *)
Fixpoint matches (r : regex) (s : str) : list nat :=
  match r with
  | Lit l => if prefixb l s then [length l] else []
  | Spaces => spaces s
  | Opt r1 => matches r1 s ++ [0]
  | Seq r1 r2 =>
      flat_map (fun n => map (Nat.add n) (matches r2 (skipn n s)))
               (matches r1 s)
  end.

(** The same for a pattern [(g)r] whose first part is capture group 1:
    the end of the group and the end of the whole match. *)
Definition matches_grp (g r : regex) (s : str) : list (nat * nat) :=
  flat_map (fun n => map (fun m => (n, n + m)) (matches r (skipn n s)))
           (matches g s).

(** A hit at the head of the text: how many characters the match spans
    and the text that replaces them. *)
Definition hit := (nat * str)%type.
Definition finder := str -> option hit.

(** [re.sub(pattern, '', ...)]: the match is replaced by nothing. *)
Definition erase (r : regex) : finder :=
  fun s => match matches r s with
           | n :: _ => Some (n, [])
           | [] => None
           end.

(** [re.sub(r"(g)r", r"\1" + tail, ...)]: the match is replaced by the
    text of group 1 followed by [tail]. *)
Definition keep_group (g r : regex) (tail : str) : finder :=
  fun s => match matches_grp g r s with
           | (n1, n) :: _ => Some (n, firstn n1 s ++ tail)
           | [] => None
           end.

(** The scan of [re.sub]: at each position outside a previous match the
    pattern is tried; a match is replaced and the scan resumes at its
    end; otherwise the character is copied.  [skip] counts the
    characters of the current match still to be dropped.  An empty
    match inserts the replacement and copies the character. *)
Fixpoint sub_from (find : finder) (s : str) (skip : nat) : str :=
  match s with
  | [] =>
      match skip, find [] with
      | 0, Some (_, rep) => rep
      | _, _ => []
      end
  | c :: s' =>
      match skip with
      | S k => sub_from find s' k
      | 0 =>
          match find s with
          | Some (S k, rep) => rep ++ sub_from find s' k
          | Some (0, rep) => rep ++ c :: sub_from find s' 0
          | None => c :: sub_from find s' 0
          end
      end
  end.

Definition sub (find : finder) (s : str) : str := sub_from find s 0.

(** Does the pattern match anywhere in the text ([re.search])? *)
Fixpoint search (find : finder) (s : str) : bool :=
  match find s with
  | Some _ => true
  | None => match s with [] => false | _ :: s' => search find s' end
  end.

End Re.

Import Re.

Declare Scope re_scope.
Delimit Scope re_scope with re.
Bind Scope re_scope with regex.
Notation "a ;; b" := (Seq a b) (at level 61, right associativity) : re_scope.

(** ** remove_x_user_id_headers *)

Section Patterns.
Local Open Scope re_scope.

(** ['x-user-id':\s*user\??\.id\s*(?:\|\|\s*'')?\s*], shared by patterns
    1 and 2. *)
Definition user_id_entry (k : regex) : regex :=
  Lit (lit "'x-user-id':") ;; Spaces ;; Lit (lit "user") ;;
  Opt (Lit (lit "?")) ;; Lit (lit ".id") ;; Spaces ;;
  Opt (Lit (lit "||") ;; Spaces ;; Lit (lit "''")) ;; Spaces ;; k.

(** [headers:\s*\{\s*'x-user-id':\s*user\??\.id\s*(?:\|\|\s*'')?\s*\},?\s*\n] *)
Definition pattern1 : regex :=
  Lit (lit "headers:") ;; Spaces ;; Lit (lit "{") ;; Spaces ;;
  user_id_entry (Lit (lit "}") ;; Opt (Lit (lit ",")) ;; Spaces ;; Lit nl).

(** [,?\s*\n\s*'x-user-id':\s*user\??\.id\s*(?:\|\|\s*'')?\s*,?] *)
Definition pattern2 : regex :=
  Opt (Lit (lit ",")) ;; Spaces ;; Lit nl ;; Spaces ;;
  user_id_entry (Opt (Lit (lit ","))).

(** [headers:\s*\{\s*\},?\s*\n] *)
Definition pattern3 : regex :=
  Lit (lit "headers:") ;; Spaces ;; Lit (lit "{") ;; Spaces ;;
  Lit (lit "}") ;; Opt (Lit (lit ",")) ;; Spaces ;; Lit nl.

(** [(\{\s*'Content-Type':\s*'application/json'),\s*\n\s*\}]: the group
    and what follows it. *)
Definition pattern4_group : regex :=
  Lit (lit "{") ;; Spaces ;; Lit (lit "'Content-Type':") ;; Spaces ;;
  Lit (lit "'application/json'").
Definition pattern4_rest : regex :=
  Lit (lit ",") ;; Spaces ;; Lit nl ;; Spaces ;; Lit (lit "}").
Definition pattern4 : regex := pattern4_group ;; pattern4_rest.
End Patterns.

(** The four substitutions. *)
Definition rule1 : finder := erase pattern1.
Definition rule2 : finder := erase pattern2.
Definition rule3 : finder := erase pattern3.
(** The replacement template of pattern 4 is [\1\n        }]. *)
Definition rule4 : finder :=
  keep_group pattern4_group pattern4_rest (nl ++ lit "        }").

Definition remove_x_user_id_headers (content : str) : str :=
  let content := sub rule1 content in
  let content := sub rule2 content in
  let content := sub rule3 content in
  let content := sub rule4 content in
  content.

(** * Properties of the matcher *)

Section Text.

Lemma prefixb_app (l t : str) : prefixb l (l ++ t) = true.
Proof.
  induction l as [|a l IH]; simpl; [reflexivity|].
  now rewrite N.eqb_refl.
Qed.

Lemma prefixb_true (l s : str) :
  prefixb l s = true -> s = l ++ skipn (length l) s.
Proof.
  revert s; induction l as [|a l IH]; intros [|b s]; simpl; try easy.
  intros H; apply andb_prop in H as [Hab Hl].
  apply N.eqb_eq in Hab; subst b. now rewrite <- IH.
Qed.

Lemma prefixb_length (l s : str) :
  prefixb l s = true -> length l <= length s.
Proof.
  intros H; apply prefixb_true in H.
  rewrite H, length_app; lia.
Qed.

(** A literal that fits in [x] is found in [x ++ y] exactly when it is
    found in [x]. *)
Lemma prefixb_app_fit (l x y : str) :
  length l <= length x -> prefixb l (x ++ y) = prefixb l x.
Proof.
  revert x; induction l as [|a l IH]; intros [|b x]; simpl; intros H;
    try reflexivity; try lia.
  rewrite IH by lia; reflexivity.
Qed.

(** A literal longer than [x] that is found in [x ++ y] continues
    into [y]. *)
Lemma prefixb_app_cross (l x y : str) :
  length x < length l -> prefixb l (x ++ y) = true ->
  prefixb (skipn (length x) l) y = true.
Proof.
  revert l; induction x as [|b x IH]; intros [|a l]; simpl; intros H P;
    try lia; try assumption.
  apply andb_prop in P as [_ P]. apply IH; [lia | assumption].
Qed.

Lemma infixb_cons (l : str) (c : char) (s : str) :
  infixb l (c :: s) = false -> infixb l s = false.
Proof. simpl; intros H; now apply orb_false_elim in H. Qed.

Lemma infixb_prefix (l s : str) :
  infixb l s = false -> prefixb l s = false.
Proof. destruct s; simpl; intros H; now apply orb_false_elim in H. Qed.

Lemma infixb_skipn (l s : str) (n : nat) :
  infixb l s = false -> infixb l (skipn n s) = false.
Proof.
  revert s; induction n as [|n IH]; intros [|c s] H; try assumption.
  simpl skipn. apply IH. now apply infixb_cons in H.
Qed.

Lemma prefixb_app_l (l a b : str) :
  prefixb l a = true -> prefixb l (a ++ b) = true.
Proof.
  intros H. rewrite (prefixb_true _ _ H), <- app_assoc. apply prefixb_app.
Qed.

Lemma infixb_app_l (l a b : str) :
  infixb l (a ++ b) = false -> infixb l a = false.
Proof.
  induction a as [|c a IH].
  - destruct l; simpl; [destruct b; discriminate | reflexivity].
  - intros H. pose proof (infixb_cons _ _ _ H) as H'.
    apply infixb_prefix in H. simpl.
    rewrite (IH H'), orb_false_r.
    destruct (prefixb l (c :: a)) eqn:E; [|reflexivity].
    apply (prefixb_app_l _ _ b) in E. congruence.
Qed.

Lemma infixb_app_r (l a b : str) :
  infixb l (a ++ b) = false -> infixb l b = false.
Proof.
  intros H. apply (infixb_skipn _ _ (length a)) in H.
  now rewrite skipn_app, skipn_all, Nat.sub_diag in H.
Qed.

(** Occurrence is transitive: a text without [l] has no [l']
    containing [l]. *)
Lemma infixb_trans (l l' s : str) :
  infixb l l' = true -> infixb l s = false -> infixb l' s = false.
Proof.
  intros Hl; induction s as [|c s IH]; intros H.
  - destruct l' as [|a l']; [|reflexivity].
    destruct l; simpl in *; discriminate.
  - pose proof (infixb_cons _ _ _ H) as H'. simpl.
    rewrite (IH H'), orb_false_r.
    destruct (prefixb l' (c :: s)) eqn:E; [|reflexivity].
    apply prefixb_true in E. rewrite E in H.
    apply infixb_app_l in H. congruence.
Qed.

End Text.

Section Matcher.

Lemma spaces_bound (s : str) (n : nat) :
  In n (spaces s) -> n <= length s.
Proof.
  revert n; induction s as [|c s IH]; simpl; intros n H.
  - destruct H as [<-|[]]; lia.
  - destruct (is_space c).
    + apply in_app_or in H as [H|[<-|[]]]; [|lia].
      apply in_map_iff in H as (m & <- & Hm). apply IH in Hm; lia.
    + destruct H as [<-|[]]; lia.
Qed.

(** A match never runs past the end of the text. *)
Lemma matches_bound (r : regex) (s : str) (n : nat) :
  In n (matches r s) -> n <= length s.
Proof.
  revert s n; induction r as [l| |r IH|r1 IH1 r2 IH2]; simpl; intros s n H.
  - destruct (prefixb l s) eqn:E; [|easy].
    destruct H as [<-|[]]. now apply prefixb_length.
  - now apply spaces_bound.
  - apply in_app_or in H as [H|[<-|[]]]; [now apply IH | lia].
  - apply in_flat_map in H as (n1 & H1 & H).
    apply in_map_iff in H as (n2 & <- & H2).
    apply IH1 in H1. apply IH2 in H2. rewrite length_skipn in H2. lia.
Qed.

(** The fewest characters a pattern can match. *)
Fixpoint min_len (r : regex) : nat :=
  match r with
  | Lit l => length l
  | Spaces => 0
  | Opt _ => 0
  | Seq r1 r2 => min_len r1 + min_len r2
  end.

Lemma matches_min_len (r : regex) (s : str) (n : nat) :
  In n (matches r s) -> min_len r <= n.
Proof.
  revert s n; induction r as [l| |r IH|r1 IH1 r2 IH2]; simpl; intros s n H.
  - destruct (prefixb l s); [|easy]. destruct H as [<-|[]]; lia.
  - lia.
  - lia.
  - apply in_flat_map in H as (n1 & H1 & H).
    apply in_map_iff in H as (n2 & <- & H2).
    apply IH1 in H1. apply IH2 in H2. lia.
Qed.

(** [needs l r]: every text matched by [r] contains the literal [l]. *)
Fixpoint needs (l : str) (r : regex) : bool :=
  match r with
  | Lit l' => infixb l l'
  | Spaces => false
  | Opt _ => false
  | Seq r1 r2 => needs l r1 || needs l r2
  end.

Lemma matches_needs (l : str) (r : regex) (s : str) :
  needs l r = true -> infixb l s = false -> matches r s = [].
Proof.
  revert s; induction r as [l'| |r IH|r1 IH1 r2 IH2]; simpl; intros s N H;
    try discriminate.
  - apply (infixb_trans _ _ _ N), infixb_prefix in H. now rewrite H.
  - destruct (needs l r1) eqn:N1.
    + now rewrite IH1.
    + simpl in N. induction (matches r1 s) as [|n L IHL]; [reflexivity|].
      simpl. rewrite IHL, app_nil_r, IH2; auto using infixb_skipn.
Qed.

Lemma matches_grp_snd (g r : regex) (s : str) :
  map snd (matches_grp g r s) = matches (Seq g r) s.
Proof.
  unfold matches_grp; simpl.
  induction (matches g s) as [|n L IH]; [reflexivity|].
  simpl. rewrite map_app, IH, map_map. reflexivity.
Qed.

Lemma matches_grp_nil (g r : regex) (s : str) :
  matches (Seq g r) s = [] -> matches_grp g r s = [].
Proof.
  rewrite <- matches_grp_snd. now destruct (matches_grp g r s).
Qed.

Lemma matches_grp_fst_le (g r : regex) (s : str) (n1 n : nat) :
  In (n1, n) (matches_grp g r s) -> n1 <= n.
Proof.
  unfold matches_grp. intros H.
  apply in_flat_map in H as (k & _ & H).
  apply in_map_iff in H as (m & E & _). inversion E; lia.
Qed.

End Matcher.

(** ** Locality: what follows a match does not change it *)

Section Locality.

Definition fits (x : str) (n : nat) : bool := n <=? length x.

Lemma filter_map_S (k : nat) (L : list nat) :
  filter (fun n => n <=? S k) (map S L)
  = map S (filter (fun n => n <=? k) L).
Proof.
  induction L as [|a L IH]; simpl; [reflexivity|].
  rewrite IH. now destruct (a <=? k).
Qed.

Lemma filter_map_S_0 (L : list nat) :
  filter (fun n => n <=? 0) (map S L) = [].
Proof. induction L; simpl; auto. Qed.

Lemma spaces_fits (x y : str) :
  filter (fits x) (spaces (x ++ y)) = spaces x.
Proof.
  unfold fits. induction x as [|c x IH]; simpl.
  - destruct y as [|c y]; simpl; [reflexivity|].
    destruct (is_space c); simpl; [|reflexivity].
    now rewrite filter_app, filter_map_S_0.
  - destruct (is_space c); simpl; [|reflexivity].
    now rewrite filter_app, filter_map_S, IH.
Qed.

Lemma flat_map_ext_in {A B} (f g : A -> list B) (L : list A) :
  (forall a, In a L -> f a = g a) -> flat_map f L = flat_map g L.
Proof.
  induction L as [|a L IH]; simpl; intros H; [reflexivity|].
  rewrite (H a), IH; auto.
Qed.

Lemma flat_map_guard {A B} (P : A -> bool) (f : A -> list B) (L : list A) :
  (forall a, P a = false -> f a = []) ->
  flat_map f L = flat_map f (filter P L).
Proof.
  intros H; induction L as [|a L IH]; simpl; [reflexivity|].
  destruct (P a) eqn:E; simpl; rewrite IH; [reflexivity|].
  now rewrite (H a E).
Qed.

Lemma filter_flat_map {A B} (P : B -> bool) (f : A -> list B) (L : list A) :
  filter P (flat_map f L) = flat_map (fun a => filter P (f a)) L.
Proof.
  induction L as [|a L IH]; simpl; [reflexivity|].
  now rewrite filter_app, IH.
Qed.

Lemma filter_shift (n k : nat) (L : list nat) :
  filter (fun m => m <=? n + k) (map (Nat.add n) L)
  = map (Nat.add n) (filter (fun m => m <=? k) L).
Proof.
  induction L as [|a L IH]; simpl; [reflexivity|].
  rewrite IH.
  destruct (a <=? k) eqn:E.
  - apply Nat.leb_le in E.
    replace (n + a <=? n + k) with true; [reflexivity|].
    symmetry; apply Nat.leb_le; lia.
  - apply Nat.leb_gt in E.
    replace (n + a <=? n + k) with false; [reflexivity|].
    symmetry; apply Nat.leb_gt; lia.
Qed.

Lemma filter_none (P : nat -> bool) (L : list nat) :
  (forall a, In a L -> P a = false) -> filter P L = [].
Proof.
  induction L as [|a L IH]; simpl; intros H; [reflexivity|].
  rewrite (H a) by auto. apply IH; auto.
Qed.

Lemma filter_all (P : nat -> bool) (L : list nat) :
  (forall a, In a L -> P a = true) -> filter P L = L.
Proof.
  induction L as [|a L IH]; simpl; intros H; [reflexivity|].
  rewrite (H a) by auto. f_equal. apply IH; auto.
Qed.

(** The matches of [r] on [x ++ y] that end inside [x] are the matches
    of [r] on [x], in the same order. *)
Lemma matches_fits (r : regex) (x y : str) :
  filter (fits x) (matches r (x ++ y)) = matches r x.
Proof.
  revert x; induction r as [l| |r IH|r1 IH1 r2 IH2]; simpl; intros x.
  - destruct (Nat.le_gt_cases (length l) (length x)) as [Hl|Hl].
    + rewrite prefixb_app_fit by assumption.
      destruct (prefixb l x); simpl; [|reflexivity].
      unfold fits. now apply Nat.leb_le in Hl as ->.
    + replace (prefixb l x) with false.
      2:{ destruct (prefixb l x) eqn:E; [|reflexivity].
          apply prefixb_length in E. lia. }
      destruct (prefixb l (x ++ y)); simpl; [|reflexivity].
      unfold fits. now apply Nat.leb_gt in Hl as ->.
  - apply spaces_fits.
  - rewrite filter_app, IH. reflexivity.
  - rewrite filter_flat_map.
    rewrite (flat_map_guard (fits x)).
    2:{ intros n Hn. apply filter_none. intros a Ha.
        apply in_map_iff in Ha as (m & <- & _).
        unfold fits in *. apply Nat.leb_gt in Hn. apply Nat.leb_gt. lia. }
    rewrite IH1. apply flat_map_ext_in. intros n Hn.
    apply matches_bound in Hn.
    rewrite skipn_app.
    replace (n - length x) with 0 by lia. simpl skipn.
    rewrite <- (IH2 (skipn n x)). unfold fits.
    rewrite <- filter_shift, length_skipn.
    apply filter_ext. intros m. f_equal. lia.
Qed.

End Locality.

Section Crossing.

(** The texts allowed before the point of interest; the class is closed
    under dropping characters from the left. *)
Variable Q : str -> Prop.
Hypothesis Q_skipn : forall x n, Q x -> Q (skipn n x).

(** [crossfree ne r k y]: a match of [r] that starts before [y] (strictly
    before when [ne] is set) and ends inside [y] cannot be continued by
    [k]. *)
Definition crossfree (ne : bool) (r k : regex) (y : str) : Prop :=
  forall x n,
    Q x -> (ne = true -> x <> []) ->
    In n (matches r (x ++ y)) -> length x < n ->
    matches k (skipn n (x ++ y)) = [].

Lemma skipn_app_cross (x y : str) (n : nat) :
  length x <= n -> skipn n (x ++ y) = skipn (n - length x) y.
Proof.
  intros H. rewrite skipn_app, skipn_all2 by assumption. reflexivity.
Qed.

Lemma prefixb_app_firstn (l x y : str) :
  length x < length l -> prefixb l (x ++ y) = true ->
  x = firstn (length x) l.
Proof.
  revert l; induction x as [|b x IH]; intros [|a l]; simpl; intros H P;
    try lia; try reflexivity.
  apply andb_prop in P as [E P]. apply N.eqb_eq in E; subst b.
  f_equal. apply IH; [lia | assumption].
Qed.

Lemma crossfree_Lit (ne : bool) (l : str) (k : regex) (y : str) :
  (forall j, Q (firstn j l) -> (ne = true -> 0 < j) -> j < length l ->
             prefixb (skipn j l) y = true ->
             matches k (skipn (length l - j) y) = []) ->
  crossfree ne (Lit l) k y.
Proof.
  intros H x n HQ Hne Hn Hx. simpl in Hn.
  destruct (prefixb l (x ++ y)) eqn:E; [|easy].
  destruct Hn as [<-|[]].
  rewrite skipn_app_cross by lia.
  apply H; [| | assumption | now apply prefixb_app_cross].
  - now rewrite <- (prefixb_app_firstn _ _ _ Hx E).
  - intros Hn. specialize (Hne Hn). destruct x; [congruence | simpl; lia].
Qed.

Lemma spaces_cross (x y : str) (n : nat) :
  In n (spaces (x ++ y)) -> length x < n -> In (n - length x) (spaces y).
Proof.
  revert n; induction x as [|c x IH]; simpl; intros n H Hn.
  - now rewrite Nat.sub_0_r.
  - destruct (is_space c).
    + apply in_app_or in H as [H|[<-|[]]]; [|lia].
      apply in_map_iff in H as (m & <- & Hm). apply IH; [assumption | lia].
    + destruct H as [<-|[]]; lia.
Qed.

Lemma crossfree_Spaces (ne : bool) (k : regex) (y : str) :
  (forall i, 0 < i -> In i (spaces y) -> matches k (skipn i y) = []) ->
  crossfree ne Spaces k y.
Proof.
  intros H x n _ _ Hn Hx. simpl in Hn.
  rewrite skipn_app_cross by lia.
  apply H; [lia | now apply spaces_cross].
Qed.

Lemma crossfree_Opt (ne : bool) (r k : regex) (y : str) :
  crossfree ne r k y -> crossfree ne (Opt r) k y.
Proof.
  intros H x n HQ Hne Hn Hx. simpl in Hn.
  apply in_app_or in Hn as [Hn|[<-|[]]]; [eauto | lia].
Qed.

Lemma flat_map_nil {A B} (f : A -> list B) (L : list A) (a : A) :
  flat_map f L = [] -> In a L -> f a = [].
Proof.
  induction L as [|b L IH]; simpl; intros H Ha; [easy|].
  apply app_eq_nil in H as [Hb HL].
  destruct Ha as [<-|Ha]; auto.
Qed.

Lemma crossfree_Seq (ne : bool) (r1 r2 k : regex) (y : str) :
  crossfree ne r1 (Seq r2 k) y -> crossfree false r2 k y ->
  crossfree ne (Seq r1 r2) k y.
Proof.
  intros H1 H2 x n HQ Hne Hn Hx. simpl in Hn.
  apply in_flat_map in Hn as (n1 & Hn1 & Hn).
  apply in_map_iff in Hn as (n2 & <- & Hn2).
  rewrite (Nat.add_comm n1 n2), <- skipn_skipn.
  destruct (Nat.le_gt_cases n1 (length x)) as [Hle|Hgt].
  - rewrite skipn_app in Hn2 |- *.
    replace (n1 - length x) with 0 in * by lia. simpl skipn in *.
    apply (H2 (skipn n1 x) n2); [auto | easy | assumption |].
    rewrite length_skipn; lia.
  - specialize (H1 x n1 HQ Hne Hn1 Hgt). simpl in H1.
    apply (flat_map_nil _ _ n2) in H1; [|assumption].
    simpl in H1. now destruct (matches k (skipn n2 (skipn n1 (x ++ y)))).
Qed.

(** When the whole pattern is crossfree, a match that starts before [y]
    is the match on the text before [y]. *)
Lemma matches_local (r : regex) (y x : str) :
  crossfree true r (Lit []) y -> x <> [] -> Q x ->
  matches r (x ++ y) = matches r x.
Proof.
  intros H Hx HQ. rewrite <- (matches_fits r x y). symmetry.
  apply filter_all. intros n Hn. unfold fits. apply Nat.leb_le.
  destruct (Nat.le_gt_cases n (length x)) as [Hle|Hgt]; [assumption|].
  now specialize (H x n HQ (fun _ => Hx) Hn Hgt).
Qed.

End Crossing.


(** ** The scan of [re.sub] *)

Section Scan.

(** A finder is sound when its matches are non-empty and lie inside the
    text. *)
Definition sound (find : finder) : Prop :=
  forall s n rep, find s = Some (n, rep) -> 0 < n <= length s.

(** A finder is local at [y] when a match attempted before [y], after
    a text of the class [Q], does not depend on [y]. *)
Variable Q : str -> Prop.

Definition local (find : finder) (y : str) : Prop :=
  forall x, x <> [] -> Q x -> find (x ++ y) = find x.

Lemma erase_sound (r : regex) : 0 < min_len r -> sound (erase r).
Proof.
  intros Hr s n rep. unfold erase.
  destruct (matches r s) as [|m L] eqn:E; [easy|].
  intros [= <- _].
  assert (In m (matches r s)) as H by (rewrite E; now left).
  split.
  - apply matches_min_len in H. lia.
  - now apply matches_bound in H.
Qed.

Lemma keep_group_sound (g r : regex) (tail : str) :
  0 < min_len (Seq g r) -> sound (keep_group g r tail).
Proof.
  intros Hr s n rep. unfold keep_group.
  pose proof (matches_grp_snd g r s) as Hs.
  destruct (matches_grp g r s) as [|[n1 m] L] eqn:E; [easy|].
  intros [= <- _].
  assert (In m (matches (Seq g r) s)) as H by (rewrite <- Hs; now left).
  split.
  - apply matches_min_len in H. lia.
  - now apply matches_bound in H.
Qed.

Lemma erase_local (r : regex) (y : str) :
  crossfree Q true r (Lit []) y -> local (erase r) y.
Proof.
  intros H x Hx HQ. unfold erase. now rewrite (matches_local H).
Qed.

Lemma filter_map_comm {A B} (P : B -> bool) (f : A -> B) (L : list A) :
  filter P (map f L) = map f (filter (fun a => P (f a)) L).
Proof.
  induction L as [|a L IH]; simpl; [reflexivity|].
  rewrite IH. now destruct (P (f a)).
Qed.

Lemma matches_grp_fits (g r : regex) (x y : str) :
  filter (fun p => fits x (snd p)) (matches_grp g r (x ++ y))
  = matches_grp g r x.
Proof.
  unfold matches_grp. rewrite filter_flat_map.
  rewrite (flat_map_guard (fits x)).
  2:{ intros n Hn. rewrite filter_map_comm. simpl.
      rewrite filter_none; [reflexivity|]. intros a _.
      unfold fits in *. apply Nat.leb_gt in Hn. apply Nat.leb_gt. lia. }
  rewrite matches_fits. apply flat_map_ext_in. intros n Hn.
  apply matches_bound in Hn.
  rewrite skipn_app.
  replace (n - length x) with 0 by lia. simpl skipn.
  rewrite <- (matches_fits r (skipn n x) y), filter_map_comm. simpl.
  f_equal. apply filter_ext. intros m. unfold fits.
  rewrite length_skipn.
  destruct (m <=? length x - n) eqn:E.
  - apply Nat.leb_le in E. apply Nat.leb_le. lia.
  - apply Nat.leb_gt in E. apply Nat.leb_gt. lia.
Qed.

Lemma matches_grp_local (g r : regex) (y x : str) :
  crossfree Q true (Seq g r) (Lit []) y -> x <> [] -> Q x ->
  matches_grp g r (x ++ y) = matches_grp g r x.
Proof.
  intros H Hx HQ. rewrite <- (matches_grp_fits g r x y). symmetry.
  pose proof (matches_local H Hx HQ) as E.
  rewrite <- !matches_grp_snd in E.
  assert (forall n, In n (map snd (matches_grp g r (x ++ y))) ->
                    fits x n = true) as F.
  { intros n Hn. rewrite E, matches_grp_snd in Hn.
    apply matches_bound in Hn. now apply Nat.leb_le. }
  clear E. induction (matches_grp g r (x ++ y)) as [|p L IH];
    [reflexivity|].
  simpl. rewrite (F (snd p)) by now left.
  f_equal. apply IH. intros n Hn. apply F. now right.
Qed.

Lemma keep_group_local (g r : regex) (tail y : str) :
  crossfree Q true (Seq g r) (Lit []) y -> local (keep_group g r tail) y.
Proof.
  intros H x Hx HQ. unfold keep_group.
  rewrite matches_grp_local by assumption.
  pose proof (matches_grp_snd g r x) as Hs.
  destruct (matches_grp g r x) as [|[n1 n] L] eqn:E; [reflexivity|].
  assert (In n (matches (Seq g r) x)) as Hn by (rewrite <- Hs; now left).
  apply matches_bound in Hn.
  assert (n1 <= n) as H1
      by (apply (@matches_grp_fst_le g r x); rewrite E; now left).
  rewrite firstn_app. replace (n1 - length x) with 0 by lia.
  now rewrite firstn_O, app_nil_r.
Qed.

Variable find : finder.

Lemma sub_from_skip (s : str) (k : nat) :
  k <= length s -> sub_from find s k = sub find (skipn k s).
Proof.
  revert k; induction s as [|c s IH]; intros [|k] Hk; try reflexivity.
  - simpl in Hk; lia.
  - simpl in Hk. simpl. apply IH. lia.
Qed.

(** A match at the head is replaced and the scan resumes after it. *)
Lemma sub_hit (s : str) (n : nat) (rep : str) :
  find s = Some (n, rep) -> 0 < n <= length s ->
  sub find s = rep ++ sub find (skipn n s).
Proof.
  intros H [Hn Hs]. destruct s as [|c s]; [simpl in Hs; lia|].
  unfold sub at 1. simpl. rewrite H.
  destruct n as [|k]; [lia|].
  rewrite sub_from_skip by (simpl in Hs; lia). reflexivity.
Qed.

(** No match at the head: the character is copied. *)
Lemma sub_miss (c : char) (s : str) :
  find (c :: s) = None -> sub find (c :: s) = c :: sub find s.
Proof. intros H. unfold sub. simpl. now rewrite H. Qed.

Lemma sub_nil : sound find -> sub find [] = [].
Proof.
  intros Hs. unfold sub; simpl.
  destruct (find []) as [[n rep]|] eqn:E; [|reflexivity].
  apply Hs in E. simpl in E. lia.
Qed.

(** A text in which the pattern is found nowhere is left as it is. *)
Lemma sub_search_false (s : str) :
  search find s = false -> sub find s = s.
Proof.
  induction s as [|c s IH]; simpl; intros H.
  - unfold sub; simpl. now destruct (find []).
  - destruct (find (c :: s)) eqn:E; [discriminate|].
    rewrite sub_miss, IH; auto.
Qed.

Lemma sub_from_app (y : str) :
  sound find -> local find y ->
  forall a k, (forall n, Q (skipn n a)) -> k <= length a ->
    sub_from find (a ++ y) k = sub_from find a k ++ sub find y.
Proof.
  intros Hs Hl. induction a as [|c a IH]; intros k Ha Hk.
  - simpl in Hk. replace k with 0 by lia.
    fold (sub find []). now rewrite sub_nil.
  - assert (forall n, Q (skipn n a)) as Ha' by (intros n; apply (Ha (S n))).
    destruct k as [|k]; simpl in Hk |- *.
    + pose proof (Hl (c :: a)) as Hc. simpl in Hc.
      rewrite Hc; [| easy | apply (Ha 0)].
      destruct (find (c :: a)) as [[[|n] rep]|] eqn:E.
      * apply Hs in E. lia.
      * apply Hs in E. simpl in E.
        rewrite IH by (auto; lia). now rewrite app_assoc.
      * now rewrite IH by (auto; lia).
    + apply IH; [auto | lia].
Qed.

(** The scan of a text before a point where the finder is local does
    not depend on what follows. *)
Lemma sub_app (a y : str) :
  sound find -> local find y -> (forall n, Q (skipn n a)) ->
  sub find (a ++ y) = sub find a ++ sub find y.
Proof. intros Hs Hl Ha. apply sub_from_app; auto. lia. Qed.

End Scan.

(** ** Unfolding a pattern one step at a time *)

Section Steps.
Local Open Scope re_scope.

Lemma map_add_0 (L : list nat) : map (Nat.add 0) L = L.
Proof. induction L as [|a L IH]; simpl; f_equal; auto. Qed.

Lemma matches_Lit_Seq (l : str) (k : regex) (s : str) :
  matches (Lit l ;; k) s
  = if prefixb l s
    then map (Nat.add (length l)) (matches k (skipn (length l) s))
    else [].
Proof. simpl. destruct (prefixb l s); simpl; now rewrite ?app_nil_r. Qed.

Lemma matches_Opt_Seq (a k : regex) (s : str) :
  matches (Opt a ;; k) s = matches (a ;; k) s ++ matches k s.
Proof.
  simpl. rewrite flat_map_app. simpl. now rewrite app_nil_r, map_add_0.
Qed.

Lemma matches_Spaces_Seq_nil (r : regex) :
  matches (Spaces ;; r) [] = matches r [].
Proof. simpl. now rewrite app_nil_r, map_add_0. Qed.

Lemma matches_Spaces_Seq_cons (r : regex) (c : char) (s : str) :
  matches (Spaces ;; r) (c :: s)
  = if is_space c
    then map S (matches (Spaces ;; r) s) ++ matches r (c :: s)
    else matches r (c :: s).
Proof.
  simpl. destruct (is_space c); simpl.
  - rewrite flat_map_app. simpl. rewrite app_nil_r, map_add_0. f_equal.
    induction (spaces s) as [|n L IH]; simpl; [reflexivity|].
    rewrite map_app, IH, map_map. reflexivity.
  - now rewrite app_nil_r, map_add_0.
Qed.

Lemma matches_Seq_assoc (a b k : regex) (s : str) :
  matches ((a ;; b) ;; k) s = matches (a ;; b ;; k) s.
Proof.
  simpl. induction (matches a s) as [|n L IH]; simpl; [reflexivity|].
  rewrite flat_map_app, IH. f_equal. clear IH.
  induction (matches b (skipn n s)) as [|m M IH]; simpl; [reflexivity|].
  rewrite map_app, IH, map_map. f_equal.
  rewrite (Nat.add_comm n m), <- skipn_skipn.
  apply map_ext. intros; lia.
Qed.

(** A whitespace character is none of the characters a literal of the
    script starts with. *)
Lemma space_neq (c d : char) :
  is_space c = true -> is_space d = false -> (d =? c)%N = false.
Proof.
  intros Hc Hd. apply N.eqb_neq. intros ->. congruence.
Qed.

(** Where the text has no occurrence of a literal the pattern needs, the
    pattern is found nowhere. *)
Lemma search_erase_needs (l : str) (r : regex) (s : str) :
  needs l r = true -> infixb l s = false -> search (erase r) s = false.
Proof.
  intros N. induction s as [|c s IH]; intros H; simpl; unfold erase.
  - now rewrite (matches_needs _ _ _ N H).
  - rewrite (matches_needs _ _ _ N H). fold (erase r).
    apply IH. now apply infixb_cons in H.
Qed.

Lemma search_keep_group_needs (l : str) (g r : regex) (tail s : str) :
  needs l (g ;; r) = true -> infixb l s = false ->
  search (keep_group g r tail) s = false.
Proof.
  intros N. induction s as [|c s IH]; intros H; simpl; unfold keep_group.
  - now rewrite (matches_grp_nil _ _ _ (matches_needs _ _ _ N H)).
  - rewrite (matches_grp_nil _ _ _ (matches_needs _ _ _ N H)).
    fold (keep_group g r tail). apply IH. now apply infixb_cons in H.
Qed.

End Steps.

(** * The header stripper *)

Section Stripper.

Lemma rule1_sound : sound rule1.
Proof. apply erase_sound. vm_compute. lia. Qed.
Lemma rule2_sound : sound rule2.
Proof. apply erase_sound. vm_compute. lia. Qed.
Lemma rule3_sound : sound rule3.
Proof. apply erase_sound. vm_compute. lia. Qed.
Lemma rule4_sound : sound rule4.
Proof. apply keep_group_sound. vm_compute. lia. Qed.

(** Rules 1 and 3 need the text [headers:], rules 1 and 2 the text
    [x-user-id], rule 4 the text ['Content-Type']. *)
Lemma rule1_without_headers (s : str) :
  infixb (lit "headers:") s = false -> sub rule1 s = s.
Proof.
  intros H. apply sub_search_false.
  now apply (search_erase_needs (lit "headers:")).
Qed.

Lemma rule1_without_user_id (s : str) :
  infixb (lit "x-user-id") s = false -> sub rule1 s = s.
Proof.
  intros H. apply sub_search_false.
  now apply (search_erase_needs (lit "x-user-id")).
Qed.

Lemma rule2_without_user_id (s : str) :
  infixb (lit "x-user-id") s = false -> sub rule2 s = s.
Proof.
  intros H. apply sub_search_false.
  now apply (search_erase_needs (lit "x-user-id")).
Qed.

Lemma rule3_without_headers (s : str) :
  infixb (lit "headers:") s = false -> sub rule3 s = s.
Proof.
  intros H. apply sub_search_false.
  now apply (search_erase_needs (lit "headers:")).
Qed.

Lemma rule4_without_content_type (s : str) :
  infixb (lit "'Content-Type'") s = false -> sub rule4 s = s.
Proof.
  intros H. apply sub_search_false.
  now apply (search_keep_group_needs (lit "'Content-Type'")).
Qed.

End Stripper.

(** ** Evaluating the patterns on a text with a known head *)

(** Literals are brought to their code points, and the tests on known
    characters are decided. *)
Ltac norm_text :=
  repeat match goal with
    | |- context [lit ?s] =>
        let v := eval vm_compute in (lit s) in change (lit s) with v
    end;
  unfold nl; cbn [app].

Ltac decide_tests :=
  repeat match goal with
    | |- context [prefixb ?l ?s] =>
        let v := eval vm_compute in (prefixb l s) in
        match v with
        | true => change (prefixb l s) with true
        | false => change (prefixb l s) with false
        end
    | |- context [is_space ?c] =>
        let v := eval vm_compute in (is_space c) in
        match v with
        | true => change (is_space c) with true
        | false => change (is_space c) with false
        end
    end;
  cbv beta iota;
  repeat match goal with
    | |- context [skipn (length ?l) ?s] =>
        let v := eval cbv in (skipn (length l) s) in
        change (skipn (length l) s) with v
    end.

Ltac step_matches :=
  repeat (first [ rewrite matches_Seq_assoc
                | rewrite matches_Opt_Seq
                | rewrite (matches_Lit_Seq _ _ (_ :: _))
                | rewrite matches_Spaces_Seq_cons ];
          decide_tests).

Section Rule1.
Local Open Scope re_scope.

Definition decl1 : str := lit "headers: { 'x-user-id': user.id }," ++ nl.
Definition decl2 : str :=
  lit "headers: { 'x-user-id': user?.id || '' }" ++ nl.

(** Length of the whitespace-only lines at the head of a text: the
    leading whitespace up to its last line break. *)
Fixpoint blank_len (s : str) : nat :=
  match s with
  | c :: s' =>
      if is_space c then
        match blank_len s' with
        | S k => S (S k)
        | 0 => if (c =? 10)%N then 1 else 0
        end
      else 0
  | [] => 0
  end.

Lemma matches_Lit_1 (d c : char) (s : str) :
  matches (Lit [d]) (c :: s) = if (d =? c)%N then [1] else [].
Proof. simpl. now destruct (d =? c)%N. Qed.

Lemma matches_blank_0 (s : str) :
  blank_len s = 0 -> matches (Spaces ;; Lit nl)%re s = [].
Proof.
  induction s as [|c s IH]; simpl blank_len; intros H.
  - reflexivity.
  - rewrite matches_Spaces_Seq_cons. unfold nl at 2 3.
    rewrite matches_Lit_1.
    destruct (is_space c) eqn:Sp.
    + destruct (blank_len s); [|discriminate].
      rewrite IH by reflexivity. rewrite N.eqb_sym.
      destruct (c =? 10)%N; [discriminate | reflexivity].
    + destruct (10 =? c)%N eqn:E; [|reflexivity].
      apply N.eqb_eq in E; subst c. discriminate.
Qed.

Lemma rule1_decl1 (post : str) :
  blank_len post = 0 -> rule1 (decl1 ++ post) = Some (length decl1, []).
Proof.
  intros H. unfold rule1, erase, pattern1, user_id_entry, decl1.
  norm_text. step_matches.
  pose proof (matches_blank_0 _ H) as B. unfold nl in B. rewrite B.
  reflexivity.
Qed.

Lemma rule1_decl2 (post : str) :
  blank_len post = 0 -> rule1 (decl2 ++ post) = Some (length decl2, []).
Proof.
  intros H. unfold rule1, erase, pattern1, user_id_entry, decl2.
  norm_text. step_matches.
  pose proof (matches_blank_0 _ H) as B. unfold nl in B. rewrite B.
  reflexivity.
Qed.

End Rule1.

(** ** Texts that no match can run into *)

Definition anything : str -> Prop := fun _ => True.

Lemma anything_skipn (x : str) (n : nat) : anything x -> anything (skipn n x).
Proof. exact (fun H => H). Qed.

(** The side conditions of [crossfree_Lit] and [crossfree_Spaces], for a
    text whose head is known: each way of splitting the literal across the
    boundary is examined. *)
Ltac lit_cases j Hne Hj P :=
  first
    [ exfalso; lia
    | destruct j as [|j];
      [ first [ exfalso; specialize (Hne eq_refl); lia
              | vm_compute in P; discriminate P
              | reflexivity
              | idtac ]
      | lit_cases j Hne Hj P ] ].

Ltac lit_side :=
  let j := fresh "j" in
  let HQ := fresh "HQ" in
  let Hne := fresh "Hne" in
  let Hj := fresh "Hj" in
  let P := fresh "P" in
  intros j HQ Hne Hj P; cbn [length] in Hj;
  lit_cases j Hne Hj P.

Ltac spaces_side :=
  let i := fresh "i" in
  let Hi := fresh "Hi" in
  let Hin := fresh "Hin" in
  intros i Hi Hin; vm_compute in Hin;
  repeat (destruct Hin as [Hin|Hin]; [subst i; try lia; try reflexivity|]);
  try contradiction.

Ltac crossfree_walk HQ :=
  repeat first
    [ apply (crossfree_Seq HQ)
    | apply crossfree_Opt
    | apply crossfree_Lit; lit_side
    | apply crossfree_Spaces; spaces_side ].

Ltac unfold_patterns :=
  unfold rule1, rule2, rule3, rule4, erase, keep_group,
    pattern1, pattern2, pattern3, pattern4, pattern4_group, pattern4_rest,
    user_id_entry.

Section Rule1Anywhere.

(** No match that starts before one of the declarations runs into it:
    the declaration starts with [h], which only the head of patterns 1
    and 3 can read. *)
Lemma decl1_local1 (post : str) : local anything rule1 (decl1 ++ post).
Proof.
  apply erase_local. unfold decl1. unfold_patterns. norm_text.
  crossfree_walk anything_skipn.
Qed.

Lemma decl2_local1 (post : str) : local anything rule1 (decl2 ++ post).
Proof.
  apply erase_local. unfold decl2. unfold_patterns. norm_text.
  crossfree_walk anything_skipn.
Qed.

Lemma all_anything (a : str) : forall n, anything (skipn n a).
Proof. intros n. exact I. Qed.

(** Rule 1 deletes the declaration where it stands; the text before it
    and the text after it are scanned as if each stood alone. *)
Lemma rule1_deletes_decl1 (pre post : str) :
  blank_len post = 0 ->
  sub rule1 (pre ++ decl1 ++ post) = sub rule1 pre ++ sub rule1 post.
Proof.
  intros H.
  rewrite (sub_app (Q:=anything)) by
    (auto using rule1_sound, decl1_local1, all_anything).
  f_equal.
  rewrite (sub_hit _ _ (rule1_decl1 _ H)).
  - now rewrite skipn_app, skipn_all, Nat.sub_diag.
  - rewrite length_app. vm_compute length at 1. lia.
Qed.

Lemma rule1_deletes_decl2 (pre post : str) :
  blank_len post = 0 ->
  sub rule1 (pre ++ decl2 ++ post) = sub rule1 pre ++ sub rule1 post.
Proof.
  intros H.
  rewrite (sub_app (Q:=anything)) by
    (auto using rule1_sound, decl2_local1, all_anything).
  f_equal.
  rewrite (sub_hit _ _ (rule1_decl2 _ H)).
  - now rewrite skipn_app, skipn_all, Nat.sub_diag.
  - rewrite length_app. vm_compute length at 1. lia.
Qed.

End Rule1Anywhere.

(** ** Known pieces of text *)

Section Carry.

Variable find : finder.
Hypothesis find_sound : sound find.

(** One step of the scan at a known character. *)
Lemma sub_step (c : char) (s : str) :
  sub find (c :: s)
  = match find (c :: s) with
    | Some (n, rep) => rep ++ sub find (skipn (pred n) s)
    | None => c :: sub find s
    end.
Proof.
  destruct (find (c :: s)) as [[n rep]|] eqn:E.
  - pose proof (find_sound E) as Hn.
    rewrite (sub_hit _ _ E Hn).
    destruct n as [|n]; [lia | reflexivity].
  - now apply sub_miss.
Qed.

(** [carries x x']: wherever the piece [x] stands, no match that starts
    before it runs into it, and the scan turns it into [x'] and goes on
    behind it. *)
Definition carries (x x' : str) : Prop :=
  forall t, local anything find (x ++ t)
            /\ sub find (x ++ t) = x' ++ sub find t.

Lemma carries_sub (x x' : str) :
  carries x x' ->
  forall a t, sub find (a ++ x ++ t) = sub find a ++ x' ++ sub find t.
Proof.
  intros H a t. destruct (H t) as [Hl Hs].
  rewrite (sub_app (Q:=anything)); auto.
  - now rewrite Hs.
  - intros n. exact I.
Qed.

End Carry.

(** A piece that every rule carries is rewritten where it stands, and the
    text around it is stripped as if each side stood alone. *)
Lemma strip_carries (x1 x2 x3 x4 x5 : str) :
  carries rule1 x1 x2 -> carries rule2 x2 x3 ->
  carries rule3 x3 x4 -> carries rule4 x4 x5 ->
  forall a t,
    remove_x_user_id_headers (a ++ x1 ++ t)
    = remove_x_user_id_headers a ++ x5 ++ remove_x_user_id_headers t.
Proof.
  intros H1 H2 H3 H4 a t. unfold remove_x_user_id_headers.
  rewrite (carries_sub rule1_sound H1), (carries_sub rule2_sound H2),
    (carries_sub rule3_sound H3), (carries_sub rule4_sound H4).
  reflexivity.
Qed.

(** The scan over a known piece of text, one position at a time. *)
Ltac scan_text Hs :=
  repeat (rewrite (sub_step Hs);
          match goal with
          | |- context [match ?f ?x with Some _ => _ | None => _ end] =>
              let v := eval vm_compute in (f x) in
              match v with
              | Some _ => change (f x) with v
              | None => change (f x) with v
              end
          end;
          cbv beta iota;
          repeat match goal with
            | |- context [skipn (pred ?n) ?s] =>
                let v := eval cbv in (skipn (pred n) s) in
                change (skipn (pred n) s) with v
            end;
          cbn [app]).

Ltac carry Hs :=
  let t := fresh "t" in
  intros t; split;
  [ first [ apply erase_local | apply keep_group_local ];
    unfold_patterns; norm_text; crossfree_walk anything_skipn
  | norm_text; scan_text Hs; reflexivity ].

Section Rule2Example.

(** The example of rule 2 in the specification. *)
Definition rule2_example : str :=
  lit "headers: {" ++ nl
  ++ lit "  'Content-Type': 'application/json'," ++ nl
  ++ lit "  'x-user-id': user.id" ++ nl
  ++ lit "}".

Definition rule2_example_result : str :=
  lit "headers: {" ++ nl
  ++ lit "  'Content-Type': 'application/json'}".

Lemma rule2_example_1 : carries rule1 rule2_example rule2_example.
Proof. unfold rule2_example. carry rule1_sound. Qed.

Lemma rule2_example_2 : carries rule2 rule2_example rule2_example_result.
Proof. unfold rule2_example, rule2_example_result. carry rule2_sound. Qed.

Lemma rule2_example_3 :
  carries rule3 rule2_example_result rule2_example_result.
Proof. unfold rule2_example_result. carry rule3_sound. Qed.

Lemma rule2_example_4 :
  carries rule4 rule2_example_result rule2_example_result.
Proof. unfold rule2_example_result. carry rule4_sound. Qed.

End Rule2Example.

(** ** Runs of whitespace *)

Section Whitespace.
Local Open Scope re_scope.

Definition blank (w : str) : Prop := forallb is_space w = true.

(** A pattern is solid when it must start with a character that is not
    whitespace. *)
Fixpoint solid (r : regex) : bool :=
  match r with
  | Lit (c :: _) => negb (is_space c)
  | Seq r1 _ => solid r1
  | _ => false
  end.

Lemma solid_fails (r : regex) (c : char) (s : str) :
  solid r = true -> is_space c = true -> matches r (c :: s) = [].
Proof.
  induction r as [[|d l]| |r IH|r1 IH1 r2 IH2]; simpl; try discriminate.
  - intros Hd Hc. apply negb_true_iff in Hd.
    now rewrite (@space_neq c d Hc Hd).
  - intros H1 Hc. now rewrite IH1.
Qed.

Lemma solid_nil (r : regex) : solid r = true -> matches r [] = [].
Proof.
  induction r as [[|d l]| |r IH|r1 IH1 r2 IH2]; simpl; try discriminate.
  - reflexivity.
  - intros H1. now rewrite IH1.
Qed.

Lemma blank_cons (c : char) (w : str) :
  blank (c :: w) -> is_space c = true /\ blank w.
Proof. unfold blank; simpl. intros H. now apply andb_prop in H. Qed.

Lemma blank_app (a b : str) : blank a -> blank b -> blank (a ++ b).
Proof. unfold blank. intros Ha Hb. now rewrite forallb_app, Ha, Hb. Qed.

(** Where the text does not start with whitespace, [\s*] reads nothing. *)
Lemma matches_Spaces_here (r : regex) (t : str) :
  spaces t = [0] -> matches (Spaces ;; r) t = matches r t.
Proof. intros H. simpl. rewrite H. simpl. now rewrite app_nil_r, map_add_0. Qed.

Lemma map_add_S (n : nat) (L : list nat) :
  map S (map (Nat.add n) L) = map (Nat.add (S n)) L.
Proof. rewrite map_map. reflexivity. Qed.

(** Before a solid pattern, [\s*] has to read the whole run. *)
Lemma matches_Spaces_skip (r : regex) (w t : str) :
  blank w -> solid r = true ->
  matches (Spaces ;; r) (w ++ t)
  = map (Nat.add (length w)) (matches (Spaces ;; r) t).
Proof.
  intros Hw Hr. induction w as [|c w IH].
  - simpl app. simpl length. now rewrite map_add_0.
  - apply blank_cons in Hw as [Hc Hw]. simpl app.
    rewrite matches_Spaces_Seq_cons, Hc, (@solid_fails r c _ Hr Hc), app_nil_r.
    rewrite (IH Hw). apply map_add_S.
Qed.

Lemma matches_Spaces_run (r : regex) (w t : str) :
  blank w -> solid r = true -> spaces t = [0] ->
  matches (Spaces ;; r) (w ++ t) = map (Nat.add (length w)) (matches r t).
Proof.
  intros Hw Hr Ht. now rewrite matches_Spaces_skip, matches_Spaces_here.
Qed.

Lemma matches_Lit_app (l : str) (k : regex) (t : str) :
  matches (Lit l ;; k) (l ++ t) = map (Nat.add (length l)) (matches k t).
Proof.
  rewrite matches_Lit_Seq, prefixb_app.
  now rewrite skipn_app, skipn_all, Nat.sub_diag.
Qed.

Lemma matches_Lit_end (l t : str) : matches (Lit l) (l ++ t) = [length l].
Proof. simpl. now rewrite prefixb_app. Qed.

Lemma concat_repeat_snoc {A} (x : list A) (k : nat) :
  concat (repeat x k) ++ x = concat (repeat x (S k)).
Proof.
  induction k as [|k IH]; simpl in *; [now rewrite app_nil_r|].
  now rewrite <- app_assoc, IH.
Qed.

Lemma map_concat_repeat {A B} (f : A -> B) (x : list A) (k : nat) :
  map f (concat (repeat x k)) = concat (repeat (map f x) k).
Proof.
  induction k as [|k IH]; simpl; [reflexivity|].
  now rewrite map_app, IH.
Qed.

Lemma spaces_nonempty (t : str) : spaces t <> [].
Proof.
  destruct t as [|c t]; simpl; [discriminate|].
  destruct (is_space c); [|discriminate].
  destruct (map S (spaces t)); discriminate.
Qed.

Lemma spaces_here_nl (t : str) : spaces t = [0] -> prefixb nl t = false.
Proof.
  intros H. destruct t as [|c t]; [reflexivity|].
  unfold nl. cbn [prefixb]. simpl in H.
  destruct (is_space c) eqn:E.
  - pose proof (spaces_nonempty t) as N.
    destruct (spaces t) as [|x L]; [congruence|].
    simpl in H. destruct (map S L); discriminate.
  - destruct (10 =? c)%N eqn:F; [|reflexivity].
    apply N.eqb_eq in F. subst c. discriminate.
Qed.

Lemma matches_nl_cons (k : regex) (c : char) (s : str) :
  matches (Lit nl ;; k) (c :: s)
  = if (10 =? c)%N then map S (matches k s) else [].
Proof.
  rewrite matches_Lit_Seq. unfold nl. cbn [prefixb length skipn].
  destruct (10 =? c)%N; reflexivity.
Qed.

(** [\s*\n\s*] before a solid pattern, on a run of whitespace [w]
    followed by a text that starts otherwise: every line break of the run
    gives the same match, which ends where the solid pattern ends. *)
Lemma matches_blank_lines (r : regex) (w t : str) :
  blank w -> solid r = true -> spaces t = [0] ->
  exists k,
    matches (Spaces ;; Lit nl ;; Spaces ;; r) (w ++ t)
    = concat (repeat (map (Nat.add (length w)) (matches r t)) k)
    /\ (In 10%N w -> 0 < k).
Proof.
  intros Hw Hr Ht. induction w as [|c w IH].
  - exists 0. split; [|easy]. simpl app.
    rewrite matches_Spaces_here by assumption.
    now rewrite matches_Lit_Seq, spaces_here_nl.
  - apply blank_cons in Hw as [Hc Hw].
    destruct (IH Hw) as (k & E & Hk). simpl app.
    rewrite matches_Spaces_Seq_cons, Hc, E.
    rewrite map_concat_repeat, map_add_S, matches_nl_cons.
    destruct (10 =? c)%N eqn:F.
    + exists (S k). split; [|lia].
      rewrite (@matches_Spaces_run r w t Hw Hr Ht), map_add_S.
      apply concat_repeat_snoc.
    + exists k. split.
      * now rewrite app_nil_r.
      * intros [G|G]; [|auto]. subst c. discriminate.
Qed.

Lemma concat_repeat_nil {A} (k : nat) : concat (repeat (@nil A) k) = [].
Proof. induction k; simpl; auto. Qed.

(** The scan copies a run of whitespace in which the finder finds
    nothing. *)
Lemma sub_blank_miss (find : finder) (w t : str) :
  blank w ->
  (forall w', blank w' -> w' <> [] -> find (w' ++ t) = None) ->
  sub find (w ++ t) = w ++ sub find t.
Proof.
  intros Hw H. induction w as [|c w IH]; [reflexivity|].
  pose proof (H (c :: w) Hw) as Hc.
  apply blank_cons in Hw as [_ Hw]. simpl app in *.
  rewrite sub_miss by (apply Hc; discriminate).
  now rewrite IH.
Qed.

End Whitespace.

Section BlankRuns.
Local Open Scope re_scope.

(** A solid pattern does not match at a whitespace character. *)
Lemma erase_blank_none (r : regex) (w t : str) :
  solid r = true -> blank w -> w <> [] -> erase r (w ++ t) = None.
Proof.
  intros Hr Hw Hn. destruct w as [|c w]; [congruence|].
  apply blank_cons in Hw as [Hc _]. unfold erase. simpl app.
  now rewrite (@solid_fails r c _ Hr Hc).
Qed.

Lemma keep_group_blank_none (g r : regex) (tail w t : str) :
  solid g = true -> blank w -> w <> [] ->
  keep_group g r tail (w ++ t) = None.
Proof.
  intros Hr Hw Hn. destruct w as [|c w]; [congruence|].
  apply blank_cons in Hw as [Hc _]. unfold keep_group, matches_grp.
  simpl app. now rewrite (@solid_fails g c _ Hr Hc).
Qed.

(** Pattern 2 inside or before a run of whitespace that is not followed
    by an [x-user-id] entry. *)
Lemma pattern2_blank_fail (w t : str) :
  blank w -> spaces t = [0] ->
  matches (user_id_entry (Opt (Lit (lit ",")))) t = [] ->
  matches (Spaces ;; Lit nl ;; Spaces ;; user_id_entry (Opt (Lit (lit ","))))
    (w ++ t) = [].
Proof.
  intros Hw Ht He.
  destruct (@matches_blank_lines (user_id_entry (Opt (Lit (lit ",")))) w t
              Hw eq_refl Ht) as (k & E & _).
  rewrite E, He. apply concat_repeat_nil.
Qed.

Lemma rule2_blank_none (w t : str) :
  blank w -> w <> [] -> spaces t = [0] ->
  matches (user_id_entry (Opt (Lit (lit ",")))) t = [] ->
  rule2 (w ++ t) = None.
Proof.
  intros Hw Hn Ht He. unfold rule2, erase, pattern2.
  rewrite matches_Opt_Seq, (@pattern2_blank_fail w t Hw Ht He), app_nil_r.
  destruct w as [|c w]; [congruence|].
  apply blank_cons in Hw as [Hc _]. simpl app.
  rewrite matches_Lit_Seq. change (lit ",") with [44%N]. cbn [prefixb].
  now rewrite (@space_neq c 44%N Hc eq_refl).
Qed.

Lemma rule2_comma_none (w t : str) :
  blank w -> spaces t = [0] ->
  matches (user_id_entry (Opt (Lit (lit ",")))) t = [] ->
  rule2 (44%N :: w ++ t) = None.
Proof.
  intros Hw Ht He. unfold rule2, erase, pattern2.
  rewrite matches_Opt_Seq.
  change (44%N :: w ++ t) with (lit "," ++ w ++ t).
  rewrite matches_Lit_app, (@pattern2_blank_fail w t Hw Ht He).
  change (lit "," ++ w ++ t) with (44%N :: w ++ t).
  now rewrite matches_Spaces_Seq_cons, matches_nl_cons.
Qed.

End BlankRuns.

(** ** The mapping that rule 4 rewrites *)

Section JsonMapping.
Local Open Scope re_scope.

(** The whitespace inside the mapping: after the brace, after the key,
    after the comma up to a line break, and before the closing brace. *)
Variables w1 w2 w3 w4 : str.
Hypothesis blank1 : blank w1.
Hypothesis blank2 : blank w2.
Hypothesis blank3 : blank w3.
Hypothesis blank4 : blank w4.

(** What group 1 of pattern 4 matches. *)
Definition json_entry : str :=
  lit "{" ++ w1 ++ lit "'Content-Type':" ++ w2 ++ lit "'application/json'".

Definition json_mapping : str :=
  json_entry ++ lit "," ++ w3 ++ nl ++ w4 ++ lit "}".

(** The closing brace on a line of its own behind eight spaces. *)
Definition json_mapping_fixed : str :=
  json_entry ++ nl ++ repeat 32%N 8 ++ lit "}".

Lemma skipn_exact (a b : str) : skipn (length a) (a ++ b) = b.
Proof. now rewrite skipn_app, skipn_all, Nat.sub_diag. Qed.

Lemma firstn_exact (a b : str) : firstn (length a) (a ++ b) = a.
Proof. now rewrite firstn_app, firstn_all, Nat.sub_diag, app_nil_r. Qed.

Lemma matches_grp_single (g r : regex) (s : str) (n1 : nat) :
  matches g s = [n1] ->
  matches_grp g r s = map (fun m => (n1, n1 + m)) (matches r (skipn n1 s)).
Proof. unfold matches_grp. intros ->. simpl. now rewrite app_nil_r. Qed.

Lemma app_mid (wa wb t : str) (c : char) :
  wa ++ c :: wb ++ t = (wa ++ c :: wb) ++ t.
Proof. now rewrite <- app_assoc. Qed.

Lemma blank_34 : blank (w3 ++ nl ++ w4).
Proof. apply blank_app; [assumption|]. now apply blank_app. Qed.

Lemma pattern4_group_entry (R : str) :
  matches pattern4_group (json_entry ++ R) = [length json_entry].
Proof.
  unfold pattern4_group, json_entry. rewrite <- !app_assoc.
  rewrite matches_Lit_app.
  rewrite matches_Spaces_run by (assumption || reflexivity).
  rewrite matches_Lit_app.
  rewrite matches_Spaces_run by (assumption || reflexivity).
  rewrite matches_Lit_end. simpl map.
  rewrite !length_app. reflexivity.
Qed.

Lemma pattern4_rest_tail (t : str) :
  exists L,
    matches pattern4_rest (lit "," ++ (w3 ++ nl ++ w4) ++ lit "}" ++ t)
    = S (length (w3 ++ nl ++ w4) + 1) :: L.
Proof.
  unfold pattern4_rest. rewrite matches_Lit_app.
  destruct (@matches_blank_lines (Lit (lit "}")) (w3 ++ nl ++ w4)
              (lit "}" ++ t) blank_34 eq_refl eq_refl) as (k & E & Hk).
  rewrite E, matches_Lit_end.
  destruct k as [|k].
  - exfalso. assert (0 < 0) as F; [|lia].
    apply Hk. apply in_or_app. right. now left.
  - simpl. eexists. reflexivity.
Qed.

(** Pattern 4 matches the whole mapping and keeps the entry. *)
Lemma rule4_json_mapping (t : str) :
  rule4 (json_mapping ++ t)
  = Some (length json_mapping, json_mapping_fixed).
Proof.
  unfold rule4, keep_group, json_mapping, json_mapping_fixed.
  rewrite <- !app_assoc.
  rewrite (@matches_grp_single _ _ _ _ (pattern4_group_entry _)).
  rewrite skipn_exact.
  replace (lit "," ++ w3 ++ nl ++ w4 ++ lit "}" ++ t)
    with (lit "," ++ (w3 ++ nl ++ w4) ++ lit "}" ++ t)
    by (now rewrite <- !app_assoc).
  destruct (pattern4_rest_tail t) as (L & ->). cbn [map].
  rewrite firstn_exact.
  f_equal. f_equal. rewrite !length_app.
  change (length (lit ",")) with 1. change (length nl) with 1.
  change (length (lit "}")) with 1. lia.
Qed.

(** A pattern that has read the opening brace fails behind it: what
    follows the whitespace is ['Content-Type']. *)
Ltac behind_brace :=
  cbn [length Nat.sub skipn];
  rewrite ?matches_Seq_assoc;
  rewrite matches_Spaces_skip by (assumption || reflexivity);
  step_matches; reflexivity.

Ltac json_local :=
  first [ apply erase_local | apply keep_group_local ];
  unfold json_mapping, json_entry;
  rewrite <- !app_assoc; unfold_patterns; norm_text;
  crossfree_walk anything_skipn; try behind_brace.

Lemma json_local1 (t : str) : local anything rule1 (json_mapping ++ t).
Proof. json_local. Qed.

Lemma json_local2 (t : str) : local anything rule2 (json_mapping ++ t).
Proof. json_local. Qed.

Lemma json_local3 (t : str) : local anything rule3 (json_mapping ++ t).
Proof. json_local. Qed.

Lemma json_local4 (t : str) : local anything rule4 (json_mapping ++ t).
Proof. json_local. Qed.

Ltac over_blank find_none :=
  rewrite sub_blank_miss;
  [ | assumption | intros; apply find_none; try assumption; reflexivity ].

Lemma json_scan1 (t : str) :
  sub rule1 (json_mapping ++ t) = json_mapping ++ sub rule1 t.
Proof.
  unfold json_mapping, json_entry. rewrite <- !app_assoc. norm_text.
  scan_text rule1_sound. over_blank (@erase_blank_none pattern1).
  scan_text rule1_sound. over_blank (@erase_blank_none pattern1).
  scan_text rule1_sound. over_blank (@erase_blank_none pattern1).
  scan_text rule1_sound. over_blank (@erase_blank_none pattern1).
  scan_text rule1_sound. reflexivity.
Qed.

Lemma json_scan3 (t : str) :
  sub rule3 (json_mapping ++ t) = json_mapping ++ sub rule3 t.
Proof.
  unfold json_mapping, json_entry. rewrite <- !app_assoc. norm_text.
  scan_text rule3_sound. over_blank (@erase_blank_none pattern3).
  scan_text rule3_sound. over_blank (@erase_blank_none pattern3).
  scan_text rule3_sound. over_blank (@erase_blank_none pattern3).
  scan_text rule3_sound. over_blank (@erase_blank_none pattern3).
  scan_text rule3_sound. reflexivity.
Qed.

Lemma json_scan2 (t : str) :
  sub rule2 (json_mapping ++ t) = json_mapping ++ sub rule2 t.
Proof.
  unfold json_mapping, json_entry. rewrite <- !app_assoc. norm_text.
  scan_text rule2_sound. over_blank rule2_blank_none.
  scan_text rule2_sound. over_blank rule2_blank_none.
  scan_text rule2_sound.
  rewrite (app_mid w3 w4).
  rewrite sub_miss
    by (apply rule2_comma_none; [exact blank_34 | reflexivity..]).
  rewrite sub_blank_miss;
    [ | exact blank_34
      | intros; apply rule2_blank_none; try assumption; reflexivity ].
  scan_text rule2_sound.
  rewrite <- app_mid. reflexivity.
Qed.

Lemma json_scan4 (t : str) :
  sub rule4 (json_mapping ++ t) = json_mapping_fixed ++ sub rule4 t.
Proof.
  rewrite (sub_hit _ _ (rule4_json_mapping t)).
  - now rewrite skipn_exact.
  - split; [|rewrite length_app; lia].
    unfold json_mapping, json_entry. rewrite !length_app.
    change (length (lit "{")) with 1. lia.
Qed.

End JsonMapping.

(** Wherever the mapping stands, rules 1 to 3 leave it alone and rule 4
    rewrites it. *)
Lemma json_mapping_carried (w1 w2 w3 w4 : str) :
  blank w1 -> blank w2 -> blank w3 -> blank w4 ->
  forall pre post,
    remove_x_user_id_headers (pre ++ json_mapping w1 w2 w3 w4 ++ post)
    = remove_x_user_id_headers pre ++ json_mapping_fixed w1 w2
      ++ remove_x_user_id_headers post.
Proof.
  intros B1 B2 B3 B4.
  apply (@strip_carries (json_mapping w1 w2 w3 w4) (json_mapping w1 w2 w3 w4)
           (json_mapping w1 w2 w3 w4) (json_mapping w1 w2 w3 w4)
           (json_mapping_fixed w1 w2)); intros t; split;
    auto using json_local1, json_local2, json_local3, json_local4,
      json_scan1, json_scan2, json_scan3, json_scan4.
Qed.


(** ** Entries with another value *)

Section OtherValue.
Local Open Scope re_scope.

Definition entry_key : str := lit "'x-user-id':".

(** [str.lstrip]: the text without its leading whitespace. *)
Fixpoint lstrip (s : str) : str :=
  match s with
  | c :: s' => if is_space c then lstrip s' else s
  | [] => []
  end.

(** The value that follows the key starts with neither [user.id] nor
    [user?.id]. *)
Definition other_value (rest : str) : bool :=
  negb (prefixb (lit "user.id") (lstrip rest))
  && negb (prefixb (lit "user?.id") (lstrip rest)).

Definition ends_with_quote (a : str) : bool := (last a 0 =? 39)%N.

Definition unquoted (a : str) : Prop := ends_with_quote a = false.

Lemma last_skipn (x : str) (n : nat) (d : char) :
  skipn n x <> [] -> last (skipn n x) d = last x d.
Proof.
  revert x; induction n as [|n IH]; intros [|c x] H; try reflexivity.
  simpl skipn in *. rewrite (IH x H).
  destruct x as [|c' x]; [|reflexivity].
  now rewrite skipn_nil in H.
Qed.

Lemma unquoted_skipn (x : str) (n : nat) :
  unquoted x -> unquoted (skipn n x).
Proof.
  unfold unquoted, ends_with_quote. intros H.
  destruct (skipn n x) as [|c s] eqn:E; [reflexivity|].
  rewrite <- E, last_skipn; [assumption|]. rewrite E. discriminate.
Qed.

Lemma prefixb_app_split (a b s : str) :
  prefixb (a ++ b) s = prefixb a s && prefixb b (skipn (length a) s).
Proof.
  revert s; induction a as [|x a IH]; intros s; simpl; [reflexivity|].
  destruct s as [|y s]; [reflexivity|].
  now rewrite IH, andb_assoc.
Qed.

Lemma matches_Seq_nil (r k : regex) (s : str) :
  matches r s = [] -> matches (r ;; k) s = [].
Proof. simpl. now intros ->. Qed.

Lemma matches_Spaces_lstrip (r : regex) (s : str) :
  solid r = true -> matches r (lstrip s) = [] ->
  matches (Spaces ;; r) s = [].
Proof.
  intros Hr. induction s as [|c s IH]; simpl lstrip; intros H.
  - now rewrite matches_Spaces_Seq_nil.
  - rewrite matches_Spaces_Seq_cons. destruct (is_space c) eqn:E.
    + now rewrite (IH H), (@solid_fails r c s Hr E).
    + assumption.
Qed.

(** The value part of patterns 1 and 2 fails on another value. *)
Lemma value_fails (tail : regex) (rest : str) :
  other_value rest = true ->
  matches (Spaces ;; Lit (lit "user") ;; Opt (Lit (lit "?")) ;;
           Lit (lit ".id") ;; tail) rest = [].
Proof.
  unfold other_value. intros H. apply andb_prop in H as [H1 H2].
  apply negb_true_iff in H1, H2.
  apply matches_Spaces_lstrip; [reflexivity|].
  set (v := lstrip rest) in *.
  change (lit "user.id") with (lit "user" ++ lit ".id") in H1.
  change (lit "user?.id") with (lit "user" ++ lit "?" ++ lit ".id") in H2.
  rewrite prefixb_app_split in H1. rewrite !prefixb_app_split in H2.
  rewrite matches_Lit_Seq.
  destruct (prefixb (lit "user") v); [|reflexivity].
  rewrite matches_Opt_Seq, !matches_Lit_Seq.
  cbn [andb] in H1, H2. rewrite H1.
  destruct (prefixb (lit "?") (skipn (length (lit "user")) v));
    [|reflexivity].
  cbn [andb] in H2. now rewrite H2.
Qed.

Variable rest : str.
Hypothesis rest_other : other_value rest = true.

(** What is left to show once a pattern has read the key: the value part
    fails; and pattern 2 cannot have read the first of its two quotes
    before the key, since the text before the key ends otherwise. *)
Ltac behind_key :=
  first
    [ cbn [length Nat.sub skipn]; apply matches_Seq_nil;
      exact (@value_fails _ rest rest_other)
    | match goal with
      | H : unquoted _ |- _ => vm_compute in H; discriminate H
      end ].

Lemma key_local1 : local anything rule1 (entry_key ++ rest).
Proof.
  apply erase_local. unfold entry_key. unfold_patterns. norm_text.
  crossfree_walk anything_skipn; behind_key.
Qed.

Lemma key_local2 : local unquoted rule2 (entry_key ++ rest).
Proof.
  apply erase_local. unfold entry_key. unfold_patterns. norm_text.
  crossfree_walk unquoted_skipn; behind_key.
Qed.

Lemma key_local3 : local anything rule3 (entry_key ++ rest).
Proof.
  apply erase_local. unfold entry_key. unfold_patterns. norm_text.
  crossfree_walk anything_skipn.
Qed.

Lemma key_local4 : local anything rule4 (entry_key ++ rest).
Proof.
  apply keep_group_local. unfold entry_key. unfold_patterns. norm_text.
  crossfree_walk anything_skipn.
Qed.

(** No pattern matches from inside the key. *)
Lemma key_scan (find : finder) :
  find = rule1 \/ find = rule2 \/ find = rule3 \/ find = rule4 ->
  sub find (entry_key ++ rest) = entry_key ++ sub find rest.
Proof.
  unfold entry_key. norm_text.
  intros [ -> | [ -> | [ -> | -> ] ] ];
    [ scan_text rule1_sound | scan_text rule2_sound
    | scan_text rule3_sound | scan_text rule4_sound ]; reflexivity.
Qed.

End OtherValue.

Section OtherValueKept.

Lemma all_unquoted (a : str) : unquoted a -> forall n, unquoted (skipn n a).
Proof. intros H n. now apply unquoted_skipn. Qed.

(** Each rule leaves the key of such an entry where it is and treats the
    text on either side of it on its own. *)
Lemma key_kept1 (a rest : str) :
  other_value rest = true ->
  sub rule1 (a ++ entry_key ++ rest)
  = sub rule1 a ++ entry_key ++ sub rule1 rest.
Proof.
  intros H. rewrite (sub_app (Q:=anything));
    auto using rule1_sound, key_local1, all_anything.
  all: rewrite key_scan; auto.
Qed.

Lemma key_kept2 (a rest : str) :
  other_value rest = true -> ends_with_quote a = false ->
  sub rule2 (a ++ entry_key ++ rest)
  = sub rule2 a ++ entry_key ++ sub rule2 rest.
Proof.
  intros H Ha. rewrite (sub_app (Q:=unquoted));
    auto using rule2_sound, key_local2, all_unquoted.
  all: rewrite key_scan; auto.
Qed.

Lemma key_kept3 (a rest : str) :
  sub rule3 (a ++ entry_key ++ rest)
  = sub rule3 a ++ entry_key ++ sub rule3 rest.
Proof.
  rewrite (sub_app (Q:=anything));
    auto using rule3_sound, key_local3, all_anything.
  all: rewrite key_scan; auto.
Qed.

Lemma key_kept4 (a rest : str) :
  sub rule4 (a ++ entry_key ++ rest)
  = sub rule4 a ++ entry_key ++ sub rule4 rest.
Proof.
  rewrite (sub_app (Q:=anything));
    auto using rule4_sound, key_local4, all_anything.
  all: rewrite key_scan; auto 6.
Qed.

End OtherValueKept.


(** ** Every match makes the text lighter *)

Section Weight.
Local Open Scope re_scope.

(** The number of characters that are not whitespace. *)
Definition weight (s : str) : nat :=
  length (filter (fun c => negb (is_space c)) s).

Lemma weight_app (a b : str) : weight (a ++ b) = weight a + weight b.
Proof. unfold weight. now rewrite filter_app, length_app. Qed.

Lemma firstn_plus (n m : nat) (s : str) :
  firstn (n + m) s = firstn n s ++ firstn m (skipn n s).
Proof.
  revert s; induction n as [|n IH]; intros [|c s]; simpl;
    try reflexivity.
  - now rewrite firstn_nil.
  - now rewrite IH.
Qed.

(** The least weight of a text that a pattern matches. *)
Fixpoint min_weight (r : regex) : nat :=
  match r with
  | Lit l => weight l
  | Spaces => 0
  | Opt _ => 0
  | Seq r1 r2 => min_weight r1 + min_weight r2
  end.

Lemma matches_weight (r : regex) (s : str) (n : nat) :
  In n (matches r s) -> min_weight r <= weight (firstn n s).
Proof.
  revert s n; induction r as [l| |r IH|r1 IH1 r2 IH2]; simpl; intros s n H;
    try lia.
  - destruct (prefixb l s) eqn:E; [|easy]. destruct H as [<-|[]].
    apply prefixb_true in E. rewrite E at 1.
    now rewrite firstn_exact.
  - apply in_flat_map in H as (n1 & H1 & H).
    apply in_map_iff in H as (n2 & <- & H2).
    rewrite firstn_plus, weight_app.
    apply IH1 in H1. apply IH2 in H2. lia.
Qed.

(** A finder is lighter when what it puts in weighs less than what it
    takes out. *)
Definition lighter (find : finder) : Prop :=
  forall s n rep, find s = Some (n, rep) -> weight rep < weight (firstn n s).

Lemma erase_lighter (r : regex) : 0 < min_weight r -> lighter (erase r).
Proof.
  intros Hr s n rep. unfold erase.
  destruct (matches r s) as [|m L] eqn:E; [easy|]. intros [= <- <-].
  assert (In m (matches r s)) as H by (rewrite E; now left).
  apply matches_weight in H. simpl. unfold weight in *. simpl. lia.
Qed.

(** Rule 4 keeps group 1 and puts a closing brace where a comma and a
    closing brace were. *)
Lemma rule4_lighter : lighter rule4.
Proof.
  intros s n rep. unfold rule4, keep_group, matches_grp.
  destruct (flat_map _ _) as [|[n1 m] L] eqn:E; [easy|]. intros [= <- <-].
  assert (In (n1, m) ((n1, m) :: L)) as H by now left.
  rewrite <- E in H. apply in_flat_map in H as (k & _ & H).
  apply in_map_iff in H as (n2 & [= <- <-] & H2).
  apply matches_weight in H2.
  rewrite firstn_plus, !weight_app.
  change (min_weight pattern4_rest) with 2 in H2.
  change (weight (10%N :: lit "        }")) with 1.
  lia.
Qed.

Variable find : finder.
Hypothesis find_sound : sound find.
Hypothesis find_lighter : lighter find.

Lemma sub_weight_suffix (s : str) :
  forall k,
    weight (sub find (skipn k s)) <= weight (skipn k s)
    /\ (search find (skipn k s) = true ->
        weight (sub find (skipn k s)) < weight (skipn k s)).
Proof.
  induction s as [|c s IH]; intros k.
  - rewrite skipn_nil, sub_nil by assumption. split; [lia|].
    simpl. destruct (find []) as [[n rep]|] eqn:E; [|discriminate].
    apply find_sound in E. simpl in E. lia.
  - destruct k as [|k]; [|apply IH]. simpl skipn.
    rewrite (sub_step find_sound). simpl search.
    destruct (find (c :: s)) as [[n rep]|] eqn:E.
    + pose proof (find_sound E) as [Hn _].
      pose proof (find_lighter E) as Hw.
      destruct (IH (pred n)) as [Hle _].
      assert (weight (c :: s)
              = weight (firstn n (c :: s)) + weight (skipn (pred n) s)) as W.
      { rewrite <- (firstn_skipn n (c :: s)) at 1. rewrite weight_app.
        destruct n as [|n]; [lia | reflexivity]. }
      rewrite weight_app, W. split; [|intros _]; lia.
    + destruct (IH 0) as [Hle Hlt]. simpl skipn in *.
      assert (forall t, weight (c :: t) = weight [c] + weight t) as W
        by (intros t; apply (weight_app [c] t)).
      rewrite (W s), (W (sub find s)). split; [lia|]. intros H. apply Hlt in H. lia.
Qed.

Lemma sub_weight_le (s : str) : weight (sub find s) <= weight s.
Proof. apply (sub_weight_suffix s 0). Qed.

Lemma sub_weight_lt (s : str) :
  search find s = true -> weight (sub find s) < weight s.
Proof. apply (sub_weight_suffix s 0). Qed.

End Weight.

Lemma rule1_lighter : lighter rule1.
Proof. apply erase_lighter. vm_compute. lia. Qed.
Lemma rule2_lighter : lighter rule2.
Proof. apply erase_lighter. vm_compute. lia. Qed.
Lemma rule3_lighter : lighter rule3.
Proof. apply erase_lighter. vm_compute. lia. Qed.

(** The stripper never adds a character that is not whitespace, and
    removes at least one as soon as one of its patterns is found. *)
Lemma strip_weight_lt (t : str) :
  (search rule1 t || search rule2 t || search rule3 t || search rule4 t
   = true) ->
  weight (remove_x_user_id_headers t) < weight t.
Proof.
  unfold remove_x_user_id_headers. intros H.
  pose proof (@sub_weight_le _ rule2_sound rule2_lighter) as L2.
  pose proof (@sub_weight_le _ rule3_sound rule3_lighter) as L3.
  pose proof (@sub_weight_le _ rule4_sound rule4_lighter) as L4.
  destruct (search rule1 t) eqn:E1.
  { pose proof (@sub_weight_lt _ rule1_sound rule1_lighter _ E1) as W.
    pose proof (L2 (sub rule1 t)).
    pose proof (L3 (sub rule2 (sub rule1 t))).
    pose proof (L4 (sub rule3 (sub rule2 (sub rule1 t)))). lia. }
  rewrite (sub_search_false _ _ E1).
  destruct (search rule2 t) eqn:E2.
  { pose proof (@sub_weight_lt _ rule2_sound rule2_lighter _ E2) as W.
    pose proof (L3 (sub rule2 t)).
    pose proof (L4 (sub rule3 (sub rule2 t))). lia. }
  rewrite (sub_search_false _ _ E2).
  destruct (search rule3 t) eqn:E3.
  { pose proof (@sub_weight_lt _ rule3_sound rule3_lighter _ E3) as W.
    pose proof (L4 (sub rule3 t)). lia. }
  rewrite (sub_search_false _ _ E3).
  simpl in H.
  apply (@sub_weight_lt _ rule4_sound rule4_lighter _ H).
Qed.

(** * The properties of the header stripper *)

Section StripperClaims.

(** A text with none of the texts the rules look for is a fixed point
    of every rule. *)
Lemma strip_plain (s : str) :
  infixb (lit "x-user-id") s = false ->
  infixb (lit "headers:") s = false ->
  remove_x_user_id_headers s = sub rule4 s.
Proof.
  intros Hu Hh. unfold remove_x_user_id_headers.
  now rewrite (rule1_without_headers _ Hh), (rule2_without_user_id _ Hu),
    (rule3_without_headers _ Hh).
Qed.

(** A mapping with a trailing comma and nothing else of interest. *)
Definition dangling_mapping : str :=
  lit "{" ++ nl ++ lit "    'Content-Type': 'application/json'," ++ nl
  ++ lit "}".

(** C3, as stated, fails: a text without [x-user-id] and without
    [headers:] is still rewritten by rule 4. *)
Lemma unrelated_text_changed :
  infixb (lit "x-user-id") dangling_mapping = false
  /\ infixb (lit "headers:") dangling_mapping = false
  /\ remove_x_user_id_headers dangling_mapping <> dangling_mapping.
Proof. repeat split; vm_compute; discriminate. Qed.

(** C3, amended: on a text that contains neither [x-user-id] nor
    [headers:], rules 1 to 3 change nothing and the result is that of
    rule 4 alone; if the text does not contain ['Content-Type'] either,
    it is returned unchanged. *)
Theorem unrelated_text_only_rule4 (s : str) :
  infixb (lit "x-user-id") s = false ->
  infixb (lit "headers:") s = false ->
  remove_x_user_id_headers s = sub rule4 s
  /\ (infixb (lit "'Content-Type'") s = false ->
      remove_x_user_id_headers s = s).
Proof.
  intros Hu Hh. split; [now apply strip_plain|].
  intros Hc. rewrite strip_plain by assumption.
  now apply rule4_without_content_type.
Qed.

Definition plain_call : str :=
  lit "const res = await fetch('/api/tasks', { method: 'GET' })".

Lemma unrelated_text_only_rule4_witness :
  infixb (lit "x-user-id") plain_call = false
  /\ infixb (lit "headers:") plain_call = false
  /\ remove_x_user_id_headers plain_call = sub rule4 plain_call
  /\ (infixb (lit "'Content-Type'") plain_call = false ->
      remove_x_user_id_headers plain_call = plain_call).
Proof.
  split; [reflexivity|]. split; [reflexivity|].
  apply (unrelated_text_only_rule4 plain_call); reflexivity.
Defined.

(** ** Rule 1 *)

(** C5, as stated, fails: a whitespace-only line after the declaration
    is deleted with it. *)
Lemma rule1_eats_blank_line :
  remove_x_user_id_headers
    (lit "  " ++ decl1 ++ nl ++ lit "  body: data,")
  <> lit "  " ++ nl ++ lit "  body: data,".
Proof. vm_compute. discriminate. Qed.

(** C5, amended: where the line break of the declaration is not followed
    by a whitespace-only line, rule 1 deletes exactly the declaration,
    in either form, and scans the text before and after it as if each
    stood alone; when the surrounding text has none of the texts the
    rules look for, the result is the surrounding text. *)
Theorem rule1_removes_declaration (pre post : str) :
  blank_len post = 0 ->
  (sub rule1 (pre ++ decl1 ++ post) = sub rule1 pre ++ sub rule1 post
   /\ sub rule1 (pre ++ decl2 ++ post) = sub rule1 pre ++ sub rule1 post)
  /\ (infixb (lit "x-user-id") (pre ++ post) = false ->
      infixb (lit "headers:") (pre ++ post) = false ->
      infixb (lit "'Content-Type'") (pre ++ post) = false ->
      remove_x_user_id_headers (pre ++ decl1 ++ post) = pre ++ post
      /\ remove_x_user_id_headers (pre ++ decl2 ++ post) = pre ++ post).
Proof.
  intros Hb.
  pose proof (rule1_deletes_decl1 pre _ Hb) as E1.
  pose proof (rule1_deletes_decl2 pre _ Hb) as E2.
  split; [now split|]. intros Hu Hh Hc.
  assert (sub rule1 pre ++ sub rule1 post = pre ++ post) as E.
  { rewrite !rule1_without_headers;
      eauto using infixb_app_l, infixb_app_r. }
  assert (remove_x_user_id_headers (pre ++ post) = pre ++ post) as F.
  { now apply unrelated_text_only_rule4. }
  unfold remove_x_user_id_headers in *.
  rewrite E1, E2, E.
  rewrite (rule1_without_headers _ Hh) in F. now split.
Qed.

Definition call_head : str :=
  lit "await fetch(url, {" ++ nl ++ lit "  method: 'POST'," ++ nl
  ++ lit "  ".
Definition call_tail : str :=
  lit "  body: JSON.stringify(data)" ++ nl ++ lit "})".

Lemma rule1_removes_declaration_witness :
  remove_x_user_id_headers (call_head ++ decl1 ++ call_tail)
  = call_head ++ call_tail
  /\ remove_x_user_id_headers (call_head ++ decl2 ++ call_tail)
     = call_head ++ call_tail.
Proof.
  apply (rule1_removes_declaration call_head call_tail); reflexivity.
Defined.

(** ** The example of rule 2 *)

(** C2, as stated, fails: on the example, rule 2 leaves no comma behind
    and rule 4 finds nothing to rewrite. *)
Lemma rule2_example_no_dangling_comma :
  infixb (lit ",") (sub rule2 (sub rule1 rule2_example)) = false
  /\ search rule4 (sub rule3 (sub rule2 (sub rule1 rule2_example))) = false.
Proof. split; vm_compute; reflexivity. Qed.

(** C2, amended: wherever the example stands, rule 2 deletes the
    [x-user-id] line with the comma and line break before it and the line
    break after it, so that the closing brace follows the [Content-Type]
    entry directly; rules 1, 3 and 4 change nothing in it. *)
Theorem rule2_example_stripped (pre post : str) :
  remove_x_user_id_headers (pre ++ rule2_example ++ post)
  = remove_x_user_id_headers pre ++ rule2_example_result
    ++ remove_x_user_id_headers post
  /\ sub rule2 (pre ++ rule2_example ++ post)
     = sub rule2 pre ++ rule2_example_result ++ sub rule2 post
  /\ sub rule4 (pre ++ rule2_example_result ++ post)
     = sub rule4 pre ++ rule2_example_result ++ sub rule4 post.
Proof.
  split; [|split].
  - apply (strip_carries rule2_example_1 rule2_example_2
             rule2_example_3 rule2_example_4).
  - apply (carries_sub rule2_sound rule2_example_2).
  - apply (carries_sub rule4_sound rule2_example_4).
Qed.

(** ** Applying the stripper twice *)

(** A text with two [x-user-id] entries inside a one-entry mapping. *)
Definition doubled_entry : str :=
  lit "headers: { 'x-user-id': user.id" ++ nl
  ++ lit "'x-user-id': user.id }" ++ nl.

(** C1, as stated, fails: the first pass deletes the second entry, which
    leaves a declaration that rule 1 deletes in the second pass. *)
Lemma strip_not_idempotent :
  remove_x_user_id_headers (remove_x_user_id_headers doubled_entry)
  <> remove_x_user_id_headers doubled_entry.
Proof. vm_compute. discriminate. Qed.

(** A text is settled when none of the four patterns is found in it. *)
Definition settled (t : str) : bool :=
  negb (search rule1 t || search rule2 t || search rule3 t
        || search rule4 t).

Lemma settled_fixed (t : str) :
  settled t = true -> remove_x_user_id_headers t = t.
Proof.
  unfold settled. intros H. apply negb_true_iff in H.
  apply orb_false_elim in H as [H H4].
  apply orb_false_elim in H as [H H3].
  apply orb_false_elim in H as [H1 H2].
  unfold remove_x_user_id_headers.
  now rewrite (sub_search_false _ _ H1), (sub_search_false _ _ H2),
    (sub_search_false _ _ H3), (sub_search_false _ _ H4).
Qed.

(** A text that the stripper leaves as it is is settled: a pattern that
    is found costs the text a character. *)
Lemma fixed_settled (t : str) :
  remove_x_user_id_headers t = t -> settled t = true.
Proof.
  intros H. unfold settled.
  destruct (search rule1 t || search rule2 t || search rule3 t
            || search rule4 t) eqn:E; [|reflexivity].
  apply strip_weight_lt in E. rewrite H in E. lia.
Qed.

(** C1, amended: a second application changes nothing exactly when none
    of the four patterns is found in the result of the first. *)
Theorem strip_twice_iff_settled (s : str) :
  remove_x_user_id_headers (remove_x_user_id_headers s)
  = remove_x_user_id_headers s
  <-> settled (remove_x_user_id_headers s) = true.
Proof. split; [apply fixed_settled | apply settled_fixed]. Qed.

Lemma strip_twice_iff_settled_witness :
  settled (remove_x_user_id_headers rule2_example) = true
  /\ remove_x_user_id_headers (remove_x_user_id_headers rule2_example)
     = remove_x_user_id_headers rule2_example.
Proof.
  split; [reflexivity|].
  apply (proj2 (strip_twice_iff_settled rule2_example)). reflexivity.
Defined.

(** ** Rule 4 *)

(** C6: wherever a mapping that holds only the entry
    ['Content-Type': 'application/json'], a trailing comma and a line
    break before its closing brace stands, whatever its whitespace, the
    stripper drops the comma and puts the closing brace on a line of its
    own behind exactly eight spaces; the text around it is stripped as if
    each side stood alone. *)
Theorem rule4_reindents_mapping (w1 w2 w3 w4 pre post : str) :
  blank w1 -> blank w2 -> blank w3 -> blank w4 ->
  remove_x_user_id_headers (pre ++ json_mapping w1 w2 w3 w4 ++ post)
  = remove_x_user_id_headers pre
    ++ (lit "{" ++ w1 ++ lit "'Content-Type':" ++ w2
        ++ lit "'application/json'" ++ nl ++ repeat 32%N 8 ++ lit "}")
    ++ remove_x_user_id_headers post.
Proof.
  intros B1 B2 B3 B4.
  rewrite (json_mapping_carried B1 B2 B3 B4).
  unfold json_mapping_fixed, json_entry. now rewrite <- !app_assoc.
Qed.

Lemma rule4_reindents_mapping_witness :
  remove_x_user_id_headers
    (lit "fetch(url, " ++ json_mapping (nl ++ lit "    ") (lit " ") [] []
     ++ lit ")")
  = lit "fetch(url, {" ++ nl ++ lit "    'Content-Type': 'application/json'"
    ++ nl ++ lit "        })".
Proof.
  exact (@rule4_reindents_mapping (nl ++ lit "    ") (lit " ") [] []
           (lit "fetch(url, ") (lit ")") eq_refl eq_refl eq_refl eq_refl).
Defined.

(** ** Entries with another value *)

(** An entry whose value only starts like [user.id]. *)
Definition identity_entry : str :=
  lit "{" ++ nl ++ lit "  'x-user-id': user.identity" ++ nl ++ lit "}".

(** The value [user.identity] is not [user.id], yet rule 2 deletes the
    key and the first seven characters of the value. *)
Lemma other_value_mangled :
  remove_x_user_id_headers identity_entry = lit "{entity" ++ nl ++ lit "}"
  /\ remove_x_user_id_headers identity_entry <> identity_entry.
Proof. split; vm_compute; [reflexivity | discriminate]. Qed.

(** A mapping whose [x-user-id] entry has the value
    [user.id.toString()]. *)
Definition to_string_mapping : str :=
  lit "headers: {" ++ nl
  ++ lit "  'Content-Type': 'application/json'," ++ nl
  ++ lit "  'x-user-id': user.id.toString()," ++ nl
  ++ lit "}" ++ nl.

(** The same entry as the only one of its mapping, on one line. *)
Definition to_string_decl : str :=
  lit "headers: { 'x-user-id': user.id.toString() }," ++ nl.

(** C9 does not hold of the code.  The value [user.id.toString()] is
    another expression than [user.id], yet rule 2, whose pattern ends
    behind [user.id] with optional parts only, deletes the comma and the
    line break before the entry, the key and [user.id]: what is left of
    the value, [.toString(),], now follows the value of the entry before.
    Rule 2 alone does this; rule 1 changes nothing in the mapping.
    Pattern 1, which reads the closing brace behind the value, leaves the
    same entry alone where it is the only one of its mapping. *)
Theorem other_value_cut :
  remove_x_user_id_headers to_string_mapping
  = lit "headers: {" ++ nl
    ++ lit "  'Content-Type': 'application/json'.toString()," ++ nl
    ++ lit "}" ++ nl
  /\ remove_x_user_id_headers to_string_mapping <> to_string_mapping
  /\ sub rule1 to_string_mapping = to_string_mapping
  /\ sub rule2 to_string_mapping = remove_x_user_id_headers to_string_mapping
  /\ remove_x_user_id_headers to_string_decl = to_string_decl.
Proof.
  repeat split; vm_compute; try reflexivity. discriminate.
Qed.

(** Where the value behind the key ['x-user-id':] starts with neither
    [user.id] nor [user?.id], every rule leaves the key where it is and
    treats the text before and behind it on its own, for rule 2 provided
    that the text before the key does not end in a single quote (which
    pattern 2 could read as the second quote of [|| '']).  So the whole
    stripper does, when rule 1 leaves such a text on both sides. *)
Lemma other_value_entry_kept (a rest : str) :
  other_value rest = true ->
  sub rule1 (a ++ entry_key ++ rest)
  = sub rule1 a ++ entry_key ++ sub rule1 rest
  /\ (ends_with_quote a = false ->
      sub rule2 (a ++ entry_key ++ rest)
      = sub rule2 a ++ entry_key ++ sub rule2 rest)
  /\ sub rule3 (a ++ entry_key ++ rest)
     = sub rule3 a ++ entry_key ++ sub rule3 rest
  /\ sub rule4 (a ++ entry_key ++ rest)
     = sub rule4 a ++ entry_key ++ sub rule4 rest
  /\ (ends_with_quote (sub rule1 a) = false ->
      other_value (sub rule1 rest) = true ->
      remove_x_user_id_headers (a ++ entry_key ++ rest)
      = remove_x_user_id_headers a ++ entry_key
        ++ remove_x_user_id_headers rest).
Proof.
  intros H. repeat split.
  - now apply key_kept1.
  - now apply key_kept2.
  - apply key_kept3.
  - apply key_kept4.
  - intros Ha Hr. unfold remove_x_user_id_headers.
    now rewrite key_kept1, key_kept2, key_kept3, key_kept4.
Qed.

(** A mapping over several lines whose entry has the value
    [session.id] comes back as it is. *)
Lemma session_entry_kept :
  remove_x_user_id_headers
    ((lit "headers: {" ++ nl ++ lit "  ") ++ entry_key
     ++ lit " session.id" ++ nl ++ lit "}" ++ nl)
  = (lit "headers: {" ++ nl ++ lit "  ") ++ entry_key
    ++ lit " session.id" ++ nl ++ lit "}" ++ nl.
Proof.
  exact (proj2 (proj2 (proj2 (proj2
           (@other_value_entry_kept (lit "headers: {" ++ nl ++ lit "  ")
              (lit " session.id" ++ nl ++ lit "}" ++ nl) eq_refl))))
           eq_refl eq_refl).
Defined.

End StripperClaims.

(** * The command-line driver *)

Module Driver.

(** What a statement does: it completes with a value, raises an exception
    (an instance of [Exception]; [msg] is [str(e)]), or leaves the program
    through [sys.exit]. *)
Inductive outcome (A : Type) : Type :=
| Done (a : A)
| Raised (msg : str)
| Exited (code : nat).
Arguments Done {A} a.
Arguments Raised {A} msg.
Arguments Exited {A} code.

(** What [open(path, 'r')] followed by [read()] yields for a path: the
    decoded text, or an exception (no such file, permission, decoding). *)
Inductive file_state : Type :=
| Text (content : str)
| Unreadable (msg : str).

Inductive io_event : Type :=
| Read (path : str)
| Write (path : str) (text : str).

(** The world of one run.  [write_fault path text] tells whether
    [open(path, 'w')] followed by [write(text)] raises, with which message,
    and what the file holds afterwards (a failed write may have truncated
    it).  [stdout] holds the printed lines and [trace] the file operations
    attempted, both oldest first. *)
Record World : Type := {
  disk : str -> file_state;
  write_fault : str -> str -> option (str * file_state);
  stdout : list str;
  trace : list io_event
}.

Fixpoint str_eqb (a b : str) : bool :=
  match a, b with
  | [], [] => true
  | x :: a', y :: b' => (x =? y)%N && str_eqb a' b'
  | _, _ => false
  end.

Definition update (d : str -> file_state) (path : str) (f : file_state)
  : str -> file_state :=
  fun p => if str_eqb p path then f else d p.

(** Programs thread the world and may stop early. *)
Definition prog (A : Type) : Type := World -> outcome A * World.

Definition ret {A} (a : A) : prog A := fun w => (Done a, w).

Definition bind {A B} (m : prog A) (k : A -> prog B) : prog B :=
  fun w =>
    match m w with
    | (Done a, w') => k a w'
    | (Raised msg, w') => (Raised msg, w')
    | (Exited code, w') => (Exited code, w')
    end.

(** [try: body  except Exception as e: handler]: [sys.exit] is not an
    [Exception] and passes through. *)
Definition try_except {A} (body : prog A) (handler : str -> prog A)
  : prog A :=
  fun w =>
    match body w with
    | (Raised msg, w') => handler msg w'
    | r => r
    end.

Definition print (line : str) : prog unit :=
  fun w => (Done tt,
            {| disk := disk w; write_fault := write_fault w;
               stdout := stdout w ++ [line]; trace := trace w |}).

Definition sys_exit {A} (code : nat) : prog A := fun w => (Exited code, w).

(** [with open(path, 'r') as f: f.read()] *)
Definition read_file (path : str) : prog str :=
  fun w =>
    let w' := {| disk := disk w; write_fault := write_fault w;
                 stdout := stdout w; trace := trace w ++ [Read path] |} in
    match disk w path with
    | Text content => (Done content, w')
    | Unreadable msg => (Raised msg, w')
    end.

(** [with open(path, 'w') as f: f.write(text)] *)
Definition write_file (path text : str) : prog unit :=
  fun w =>
    let after f :=
      {| disk := update (disk w) path f; write_fault := write_fault w;
         stdout := stdout w; trace := trace w ++ [Write path text] |} in
    match write_fault w path text with
    | None => (Done tt, after (Text text))
    | Some (msg, remains) => (Raised msg, after remains)
    end.

End Driver.

Import Driver.

Notation "'let*' x ':=' m 'in' k" := (bind m (fun x => k))
  (at level 10, x name, m at level 100, k at level 200).
Notation "m >> k" := (bind m (fun _ => k))
  (at level 65, right associativity).

Section Main.

Definition usage_line : str :=
  lit "Usage: python3 remove-x-user-id.py <file>".

(** The lines start with U+2713 (check mark) and U+2717 (ballot x). *)
Definition fixed_line (filename : str) : str :=
  [10003%N] ++ lit " Fixed " ++ filename.
Definition unchanged_line (filename : str) : str :=
  lit "- No changes needed in " ++ filename.
Definition error_line (filename e : str) : str :=
  [10007%N] ++ lit " Error processing " ++ filename ++ lit ": " ++ e.

(** The body of the [try] statement. *)
Definition rewrite_file (filename : str) : prog unit :=
  let* content := read_file filename in
  let new_content := remove_x_user_id_headers content in
  if negb (str_eqb content new_content) then
    write_file filename new_content >>
    print (fixed_line filename)
  else
    print (unchanged_line filename).

(** [argv] is [sys.argv]: the program name, then the arguments. *)
Definition main (argv : list str) : prog unit :=
  if length argv <? 2 then
    print usage_line >>
    sys_exit 1
  else
    let filename := nth 1 argv [] in
    try_except (rewrite_file filename)
      (fun e => print (error_line filename e) >> sys_exit 1).

(** The exit status of the process: 0 when [main] returns, the argument
    of [sys.exit], 1 for an exception that nothing catches. *)
Definition exit_status (r : outcome unit) : nat :=
  match r with
  | Done _ => 0
  | Exited code => code
  | Raised _ => 1
  end.

Definition run (argv : list str) (w : World) : nat * World :=
  let (r, w') := main argv w in (exit_status r, w').

End Main.

Section DriverClaims.

Lemma str_eqb_refl (a : str) : str_eqb a a = true.
Proof. induction a as [|x a IH]; simpl; [|rewrite N.eqb_refl]; auto. Qed.

Lemma str_eqb_eq (a b : str) : str_eqb a b = true <-> a = b.
Proof.
  split; [|intros ->; apply str_eqb_refl].
  revert b; induction a as [|x a IH]; intros [|y b]; simpl; try easy.
  intros H. apply andb_prop in H as [E H].
  apply N.eqb_eq in E. subst y. f_equal. now apply IH.
Qed.

(** The world after lines were printed and file operations attempted. *)
Definition advanced (w : World) (d : str -> file_state)
    (lines : list str) (ops : list io_event) : World :=
  {| disk := d; write_fault := write_fault w;
     stdout := stdout w ++ lines; trace := trace w ++ ops |}.

(** C7: without a file argument the program prints the usage line and
    exits with status 1; no file is read or written. *)
Theorem no_argument_usage (program : str) (w : World) :
  run [program] w = (1, advanced w (disk w) [usage_line] [])
  /\ run [] w = (1, advanced w (disk w) [usage_line] []).
Proof.
  unfold run, main, advanced, bind, print, sys_exit; simpl.
  now rewrite app_nil_r.
Qed.

(** The path a file operation is about. *)
Definition event_path (e : io_event) : str :=
  match e with
  | Read path => path
  | Write path _ => path
  end.

(** C10: arguments after the first are ignored.  The run is the run with
    the first argument alone; it is not turned down with the usage line,
    it starts by reading the first argument, and every file operation of
    the run is about that path. *)
Theorem extra_arguments_ignored (program file : str) (extra : list str)
    (w : World) :
  run (program :: file :: extra) w = run [program; file] w
  /\ exists line ops,
       let w' := snd (run (program :: file :: extra) w) in
       stdout w' = stdout w ++ [line]
       /\ line <> usage_line
       /\ trace w' = trace w ++ Read file :: ops
       /\ Forall (fun e => event_path e = file) ops.
Proof.
  split; [reflexivity|].
  unfold run, main, try_except, rewrite_file, bind, read_file, write_file,
    print, sys_exit.
  simpl. destruct (disk w file) as [content|msg]; simpl.
  - destruct (str_eqb content (remove_x_user_id_headers content)); simpl.
    + exists (unchanged_line file), []. repeat split; auto; discriminate.
    + destruct (write_fault w file _) as [[msg remains]|]; simpl.
      * exists (error_line file msg),
          [Write file (remove_x_user_id_headers content)].
        rewrite <- app_assoc.
        repeat split; auto; discriminate.
      * exists (fixed_line file),
          [Write file (remove_x_user_id_headers content)].
        rewrite <- app_assoc.
        repeat split; auto; discriminate.
  - exists (error_line file msg), []. repeat split; auto; discriminate.
Qed.

(** C8: an exception while reading or writing gives exactly one line, the
    error line with the message of the exception, and exit status 1;
    without an exception the exit status is 0. *)
Theorem exit_status_reflects_exception (program file : str)
    (extra : list str) (w : World) :
  let (status, w') := run (program :: file :: extra) w in
  match disk w file with
  | Unreadable msg =>
      status = 1 /\ stdout w' = stdout w ++ [error_line file msg]
  | Text content =>
      let new_content := remove_x_user_id_headers content in
      if str_eqb content new_content then status = 0
      else match write_fault w file new_content with
           | Some (msg, _) =>
               status = 1 /\ stdout w' = stdout w ++ [error_line file msg]
           | None => status = 0
           end
  end.
Proof.
  unfold run, main, try_except, rewrite_file, bind, read_file, write_file,
    print, sys_exit; simpl.
  destruct (disk w file) as [content|msg]; simpl; [|auto].
  destruct (str_eqb content (remove_x_user_id_headers content)); simpl;
    [reflexivity|].
  destruct (write_fault w file (remove_x_user_id_headers content))
    as [[msg remains]|]; simpl; auto.
Qed.

(** C4: the file is written exactly when the stripper changed the text.
    Unchanged text: nothing is written and the "no changes" line is
    printed.  Changed text: the file is overwritten with the new text and
    the confirmation line is printed. *)
Theorem write_only_on_change (program file : str) (extra : list str)
    (w : World) (content : str) :
  let new_content := remove_x_user_id_headers content in
  disk w file = Text content ->
  (new_content <> content -> write_fault w file new_content = None) ->
  run (program :: file :: extra) w
  = if str_eqb content new_content
    then (0, advanced w (disk w) [unchanged_line file] [Read file])
    else (0, advanced w (update (disk w) file (Text new_content))
               [fixed_line file] [Read file; Write file new_content]).
Proof.
  intros new_content Hd Hw.
  unfold run, main, try_except, rewrite_file, bind, read_file, write_file,
    print, sys_exit, advanced; simpl.
  rewrite Hd; simpl. fold new_content.
  destruct (str_eqb content new_content) eqn:E; simpl; [reflexivity|].
  rewrite Hw.
  - simpl. now rewrite <- app_assoc.
  - intros F. rewrite F, str_eqb_refl in E. discriminate.
Qed.

(** A world with one file, the example of rule 2, where writes succeed. *)
Definition one_file (path content : str) : World :=
  {| disk := fun p => if str_eqb p path then Text content
                      else Unreadable (lit "No such file or directory");
     write_fault := fun _ _ => None;
     stdout := [];
     trace := [] |}.

Lemma write_only_on_change_witness :
  run [lit "remove-x-user-id.py"; lit "api.ts"]
      (one_file (lit "api.ts") rule2_example)
  = (0, advanced (one_file (lit "api.ts") rule2_example)
          (update (disk (one_file (lit "api.ts") rule2_example))
             (lit "api.ts") (Text rule2_example_result))
          [fixed_line (lit "api.ts")]
          [Read (lit "api.ts"); Write (lit "api.ts") rule2_example_result]).
Proof.
  exact (write_only_on_change (lit "remove-x-user-id.py") (lit "api.ts") []
           (one_file (lit "api.ts") rule2_example) (content:=rule2_example)
           eq_refl (fun _ => eq_refl)).
Defined.

End DriverClaims.

(** * Further properties of the header stripper *)

(** ** What a match can take out *)

Section Ink.
Local Open Scope re_scope.

(** The characters of a text that are not whitespace, in order. *)
Definition ink (s : str) : str := filter (fun c => negb (is_space c)) s.

(** [subseq a b]: [a] is [b] with some of its characters left out. *)
Inductive subseq : str -> str -> Prop :=
| subseq_nil : subseq [] []
| subseq_keep (c : char) (a b : str) : subseq a b -> subseq (c :: a) (c :: b)
| subseq_drop (c : char) (a b : str) : subseq a b -> subseq a (c :: b).

Lemma subseq_refl (a : str) : subseq a a.
Proof. induction a; constructor; assumption. Qed.

Lemma subseq_none (b : str) : subseq [] b.
Proof. induction b; constructor; assumption. Qed.

Lemma subseq_app (a a' b b' : str) :
  subseq a a' -> subseq b b' -> subseq (a ++ b) (a' ++ b').
Proof. intros Ha Hb. induction Ha; simpl; try constructor; assumption. Qed.

Lemma subseq_trans (a b c : str) : subseq a b -> subseq b c -> subseq a c.
Proof.
  intros Hab Hbc. revert a Hab.
  induction Hbc as [|x b c _ IH|x b c _ IH]; intros a Hab.
  - assumption.
  - inversion Hab; subst; constructor; auto.
  - constructor. auto.
Qed.

Lemma subseq_length (a b : str) : subseq a b -> length a <= length b.
Proof. induction 1; simpl; lia. Qed.

Lemma ink_app (a b : str) : ink (a ++ b) = ink a ++ ink b.
Proof. apply filter_app. Qed.

(** The ink of the texts that a pattern matches: one per way of taking or
    leaving its optional parts. *)
Fixpoint inks (r : regex) : list str :=
  match r with
  | Lit l => [ink l]
  | Spaces => [[]]
  | Opt r1 => inks r1 ++ [[]]
  | Seq r1 r2 => flat_map (fun a => map (app a) (inks r2)) (inks r1)
  end.

Lemma spaces_ink (s : str) (n : nat) :
  In n (spaces s) -> ink (firstn n s) = [].
Proof.
  revert n; induction s as [|c s IH]; simpl; intros n H.
  - destruct H as [<-|[]]. reflexivity.
  - destruct (is_space c) eqn:E.
    + apply in_app_or in H as [H|[<-|[]]]; [|reflexivity].
      apply in_map_iff in H as (m & <- & Hm). simpl. rewrite E. simpl. auto.
    + destruct H as [<-|[]]. reflexivity.
Qed.

(** What a pattern matches is, whitespace aside, one of finitely many
    texts. *)
Lemma matches_ink (r : regex) (s : str) (n : nat) :
  In n (matches r s) -> In (ink (firstn n s)) (inks r).
Proof.
  revert s n; induction r as [l| |r IH|r1 IH1 r2 IH2]; simpl; intros s n H.
  - destruct (prefixb l s) eqn:E; [|easy]. destruct H as [<-|[]].
    apply prefixb_true in E. rewrite E at 1. rewrite firstn_exact. now left.
  - left. symmetry. now apply spaces_ink.
  - apply in_or_app. apply in_app_or in H as [H|[<-|[]]]; [left; auto|].
    right. now left.
  - apply in_flat_map in H as (n1 & H1 & H).
    apply in_map_iff in H as (n2 & <- & H2).
    rewrite firstn_plus, ink_app. apply in_flat_map.
    exists (ink (firstn n1 s)). split; [auto|]. apply in_map. auto.
Qed.

(** A finder is gentle when what it puts in is, whitespace aside, part of
    what it takes out. *)
Definition gentle (find : finder) : Prop :=
  forall s n rep,
    find s = Some (n, rep) -> subseq (ink rep) (ink (firstn n s)).

Lemma erase_gentle (r : regex) : gentle (erase r).
Proof.
  intros s n rep. unfold erase.
  destruct (matches r s) as [|m L]; [easy|]. intros [= <- <-].
  apply subseq_none.
Qed.

(** The parts of a match of pattern 4: the end of group 1 and the end of
    the match. *)
Lemma rule4_parts (s : str) (n : nat) (rep : str) :
  rule4 s = Some (n, rep) ->
  exists n1 n2,
    n = n1 + n2 /\ rep = firstn n1 s ++ nl ++ lit "        }"
    /\ In n1 (matches pattern4_group s)
    /\ In n2 (matches pattern4_rest (skipn n1 s)).
Proof.
  unfold rule4, keep_group, matches_grp.
  destruct (flat_map _ _) as [|[n1 m] L] eqn:E; [easy|]. intros [= <- <-].
  assert (In (n1, m) ((n1, m) :: L)) as H by now left.
  rewrite <- E in H. apply in_flat_map in H as (k & Hk & H).
  apply in_map_iff in H as (n2 & [= <- <-] & H2).
  now exists k, n2.
Qed.

Lemma rule4_gentle : gentle rule4.
Proof.
  intros s n rep H. apply rule4_parts in H as (n1 & n2 & -> & -> & _ & H2).
  apply matches_ink in H2.
  rewrite firstn_plus, !ink_app. apply subseq_app; [apply subseq_refl|].
  destruct H2 as [<-|[]]. vm_compute. repeat constructor.
Qed.

Variable find : finder.
Hypothesis find_sound : sound find.
Hypothesis find_gentle : gentle find.

Lemma sub_gentle_suffix (s : str) :
  forall k, subseq (ink (sub find (skipn k s))) (ink (skipn k s)).
Proof.
  induction s as [|c s IH]; intros k.
  - rewrite skipn_nil, sub_nil by assumption. constructor.
  - destruct k as [|k]; [|apply IH]. simpl skipn.
    rewrite (sub_step find_sound).
    destruct (find (c :: s)) as [[n rep]|] eqn:E.
    + pose proof (find_sound E) as [Hn _].
      pose proof (find_gentle E) as Hg.
      replace (ink (c :: s))
        with (ink (firstn n (c :: s)) ++ ink (skipn n (c :: s)))
        by (now rewrite <- ink_app, firstn_skipn).
      rewrite ink_app. apply subseq_app; [assumption|].
      destruct n as [|n]; [lia|]. apply IH.
    + specialize (IH 0). simpl skipn in IH.
      change (c :: sub find s) with ([c] ++ sub find s).
      change (c :: s) with ([c] ++ s).
      rewrite (ink_app [c] s), (ink_app [c] (sub find s)).
      apply subseq_app; [apply subseq_refl | assumption].
Qed.

Lemma sub_gentle (s : str) : subseq (ink (sub find s)) (ink s).
Proof. apply (sub_gentle_suffix s 0). Qed.

End Ink.

(** ** The stripper only deletes *)

Section OnlyDeletes.

(** X1: whitespace aside, the stripper only deletes: the characters of
    the result that are not whitespace are characters of the input, in
    the same order. *)
Theorem strip_only_deletes (t : str) :
  subseq (ink (remove_x_user_id_headers t)) (ink t).
Proof.
  unfold remove_x_user_id_headers.
  apply subseq_trans with (ink (sub rule3 (sub rule2 (sub rule1 t))));
    [apply (sub_gentle rule4_sound rule4_gentle)|].
  apply subseq_trans with (ink (sub rule2 (sub rule1 t)));
    [apply (sub_gentle rule3_sound (@erase_gentle pattern3))|].
  apply subseq_trans with (ink (sub rule1 t));
    [apply (sub_gentle rule2_sound (@erase_gentle pattern2))|].
  apply (sub_gentle rule1_sound (@erase_gentle pattern1)).
Qed.

(** X2: the stripper changes a text exactly when one of the four patterns
    is found in it; a text in which none is found comes back as it is,
    and any other comes back with fewer characters that are not
    whitespace. *)
Theorem strip_changes_when_found (t : str) :
  (settled t = true -> remove_x_user_id_headers t = t)
  /\ (settled t = false ->
      remove_x_user_id_headers t <> t
      /\ weight (remove_x_user_id_headers t) < weight t).
Proof.
  split; [apply settled_fixed|]. intros H.
  assert (weight (remove_x_user_id_headers t) < weight t) as W.
  { apply strip_weight_lt. unfold settled in H.
    now apply negb_false_iff in H. }
  split; [|assumption]. intros E. rewrite E in W. lia.
Qed.

Lemma strip_changes_when_found_witness :
  (settled plain_call = true
   /\ remove_x_user_id_headers plain_call = plain_call)
  /\ (settled decl1 = false
      /\ remove_x_user_id_headers decl1 <> decl1
      /\ weight (remove_x_user_id_headers decl1) < weight decl1).
Proof.
  split; (split; [reflexivity|]).
  - apply (proj1 (strip_changes_when_found plain_call)). reflexivity.
  - apply (proj2 (strip_changes_when_found decl1)). reflexivity.
Defined.

(** The stripper applied [k] times. *)
Fixpoint strip_times (k : nat) (t : str) : str :=
  match k with
  | 0 => t
  | S k' => strip_times k' (remove_x_user_id_headers t)
  end.

Lemma strip_times_settled (k : nat) (t : str) :
  settled t = true -> strip_times k t = t.
Proof.
  intros H. induction k as [|k IH]; [reflexivity|].
  simpl. now rewrite (settled_fixed _ H).
Qed.

Lemma strip_times_plus (j k : nat) (t : str) :
  strip_times (j + k) t = strip_times j (strip_times k t).
Proof.
  revert t; induction k as [|k IH]; intros t.
  - now rewrite Nat.add_0_r.
  - rewrite Nat.add_succ_r. simpl. apply IH.
Qed.

Lemma strip_settles_within (n : nat) :
  forall t, weight t <= n ->
    exists k, k <= weight t /\ settled (strip_times k t) = true.
Proof.
  induction n as [|n IH]; intros t Hn.
  - exists 0. split; [lia|]. simpl.
    destruct (settled t) eqn:E; [reflexivity|].
    unfold settled in E. apply negb_false_iff, strip_weight_lt in E. lia.
  - destruct (settled t) eqn:E; [exists 0; split; [lia | assumption]|].
    unfold settled in E. apply negb_false_iff, strip_weight_lt in E.
    destruct (IH (remove_x_user_id_headers t)) as (k & Hk & Hs); [lia|].
    exists (S k). split; [lia | assumption].
Qed.

(** X3: applying the stripper again and again comes to rest: after at
    most as many passes as the text has characters that are not
    whitespace, no pattern is found any more and further passes change
    nothing. *)
Theorem strip_settles (t : str) :
  exists k,
    k <= weight t
    /\ settled (strip_times k t) = true
    /\ forall j, strip_times (j + k) t = strip_times k t.
Proof.
  destruct (@strip_settles_within (weight t) t (le_n _)) as (k & Hk & Hs).
  exists k. repeat split; try assumption.
  intros j. rewrite strip_times_plus. now apply strip_times_settled.
Qed.

(** Every pattern ends in or contains a line break. *)
Lemma strip_needs_line_break (s : str) :
  infixb nl s = false -> settled s = true.
Proof.
  intros H. unfold settled, rule1, rule2, rule3, rule4.
  rewrite (@search_erase_needs nl pattern1 s eq_refl H),
    (@search_erase_needs nl pattern2 s eq_refl H),
    (@search_erase_needs nl pattern3 s eq_refl H).
  now rewrite (@search_keep_group_needs nl pattern4_group pattern4_rest
                 _ s eq_refl H).
Qed.

(** X4: a text without a line break is returned as it is, whatever it
    holds: each of the four patterns has to read a line break. *)
Theorem strip_single_line (s : str) :
  infixb nl s = false -> remove_x_user_id_headers s = s.
Proof. intros H. now apply settled_fixed, strip_needs_line_break. Qed.

(** A declaration that rule 1 would delete, on the last line of a file
    that does not end in a line break. *)
Definition last_line_decl : str := lit "headers: { 'x-user-id': user.id }".

Lemma strip_single_line_witness :
  infixb nl last_line_decl = false
  /\ remove_x_user_id_headers last_line_decl = last_line_decl.
Proof.
  split; [reflexivity|]. apply (strip_single_line last_line_decl).
  reflexivity.
Defined.

End OnlyDeletes.

(** ** What each rule can touch *)

Section Shapes.

(** An optional piece of text. *)
Definition opt (b : bool) (l : str) : str := if b then l else [].

Lemma erase_first (r : regex) (s : str) (n : nat) (rep : str) :
  erase r s = Some (n, rep) -> rep = [] /\ In n (matches r s).
Proof.
  unfold erase. destruct (matches r s) as [|m L]; [easy|].
  intros [= <- <-]. split; [reflexivity | now left].
Qed.

(** The ink of what a rule matched is one of the listed texts. *)
Ltac listed H :=
  apply erase_first in H as [-> H]; split; [reflexivity|];
  apply matches_ink in H;
  match type of H with
  | In ?x _ =>
      let x' := fresh "x" in
      let E := fresh "E" in
      remember x as x' eqn:E; vm_compute in H;
      repeat (destruct H as [H|H]; [rewrite <- H|]); try contradiction
  end.

Ltac either := (exists true) + (exists false).

(** X5: a match of rule 1, 2 or 3 is replaced by nothing, and what it
    takes out spells, whitespace aside, a [headers:] mapping whose only
    entry is ['x-user-id': user.id] (rule 1), such an entry alone
    (rule 2), or an empty [headers:] mapping (rule 3); the entry may have
    [user?.id] for [user.id] and [|| ''] behind it, and a comma may
    follow (and, for rule 2, precede). *)
Theorem erased_text_shape (s : str) (n : nat) (rep : str) :
  (rule1 s = Some (n, rep) ->
   rep = []
   /\ exists q o c,
        ink (firstn n s)
        = lit "headers:{'x-user-id':user" ++ opt q (lit "?") ++ lit ".id"
          ++ opt o (lit "||''") ++ lit "}" ++ opt c (lit ","))
  /\ (rule2 s = Some (n, rep) ->
      rep = []
      /\ exists c1 q o c2,
           ink (firstn n s)
           = opt c1 (lit ",") ++ lit "'x-user-id':user" ++ opt q (lit "?")
             ++ lit ".id" ++ opt o (lit "||''") ++ opt c2 (lit ","))
  /\ (rule3 s = Some (n, rep) ->
      rep = []
      /\ exists c, ink (firstn n s) = lit "headers:{}" ++ opt c (lit ",")).
Proof.
  split; [|split]; intros H.
  - listed H; solve [either; either; either; reflexivity].
  - listed H; solve [either; either; either; either; reflexivity].
  - listed H; solve [either; reflexivity].
Qed.

(** An entry line with the comma before it, and an empty mapping. *)
Definition entry_line : str := lit "," ++ nl ++ lit "  'x-user-id': user.id".
Definition empty_headers : str := lit "headers: { }," ++ nl.

Lemma erased_text_shape_witness :
  (exists q o c,
     ink decl2
     = lit "headers:{'x-user-id':user" ++ opt q (lit "?") ++ lit ".id"
       ++ opt o (lit "||''") ++ lit "}" ++ opt c (lit ","))
  /\ (exists c1 q o c2,
        ink entry_line
        = opt c1 (lit ",") ++ lit "'x-user-id':user" ++ opt q (lit "?")
          ++ lit ".id" ++ opt o (lit "||''") ++ opt c2 (lit ","))
  /\ (exists c, ink empty_headers = lit "headers:{}" ++ opt c (lit ",")).
Proof.
  split; [|split].
  - exact (proj2 (proj1 (erased_text_shape decl2 (length decl2) [])
                    eq_refl)).
  - exact (proj2 (proj1 (proj2 (erased_text_shape
                                  entry_line (length entry_line) []))
                    eq_refl)).
  - exact (proj2 (proj2 (proj2 (erased_text_shape
                                  empty_headers (length empty_headers) []))
                    eq_refl)).
Defined.

(** X6: a match of rule 4 spells, whitespace aside,
    [{'Content-Type':'application/json',}]; it is replaced by its part up
    to the end of ['application/json'], a line break, eight spaces and
    the closing brace, so that only the comma and whitespace are
    changed. *)
Theorem rule4_text_shape (s : str) (n : nat) (rep : str) :
  rule4 s = Some (n, rep) ->
  exists n1,
    n1 < n
    /\ rep = firstn n1 s ++ nl ++ repeat 32%N 8 ++ lit "}"
    /\ ink (firstn n1 s) = lit "{'Content-Type':'application/json'"
    /\ ink (firstn n s) = lit "{'Content-Type':'application/json',}"
    /\ ink rep = lit "{'Content-Type':'application/json'}".
Proof.
  intros H. apply rule4_parts in H as (n1 & n2 & -> & -> & H1 & H2).
  pose proof (matches_min_len _ _ _ H2) as L2.
  apply matches_ink in H1, H2.
  destruct H1 as [H1|[]]. destruct H2 as [H2|[]].
  exists n1. rewrite firstn_plus, !ink_app, <- H1, <- H2.
  repeat split. vm_compute in L2. lia.
Qed.

Lemma rule4_text_shape_witness :
  exists n1,
    n1 < length dangling_mapping
    /\ json_mapping_fixed (nl ++ lit "    ") (lit " ")
       = firstn n1 dangling_mapping ++ nl ++ repeat 32%N 8 ++ lit "}"
    /\ ink (firstn n1 dangling_mapping)
       = lit "{'Content-Type':'application/json'"
    /\ ink (firstn (length dangling_mapping) dangling_mapping)
       = lit "{'Content-Type':'application/json',}"
    /\ ink (json_mapping_fixed (nl ++ lit "    ") (lit " "))
       = lit "{'Content-Type':'application/json'}".
Proof.
  exact (@rule4_text_shape dangling_mapping (length dangling_mapping)
           (json_mapping_fixed (nl ++ lit "    ") (lit " ")) eq_refl).
Defined.

End Shapes.

(** ** The first match on a text of known form *)

Section FirstMatch.
Local Open Scope re_scope.

(** [leads r s m]: the first match of [r] at the head of [s], the one
    that [re.sub] replaces, has length [m]. *)
Definition leads (r : regex) (s : str) (m : nat) : Prop :=
  exists L, matches r s = m :: L.

Lemma leads_eq (r : regex) (s : str) (m m' : nat) :
  leads r s m -> m = m' -> leads r s m'.
Proof. now intros H <-. Qed.

Lemma leads_erase (r : regex) (s : str) (m : nat) :
  leads r s m -> erase r s = Some (m, []).
Proof. intros (L & E). unfold erase. now rewrite E. Qed.

Lemma leads_Lit (l : str) (k : regex) (t : str) (m : nat) :
  leads k t m -> leads (Lit l ;; k) (l ++ t) (length l + m).
Proof.
  intros (L & E). unfold leads. rewrite matches_Lit_app, E. simpl. eauto.
Qed.

Lemma leads_Lit_end (l t : str) : leads (Lit l) (l ++ t) (length l).
Proof. unfold leads. rewrite matches_Lit_end. eauto. Qed.

Lemma leads_Spaces_none (k : regex) (t : str) (m : nat) :
  spaces t = [0] -> leads k t m -> leads (Spaces ;; k) t m.
Proof. intros Ht H. unfold leads. now rewrite matches_Spaces_here. Qed.

Lemma leads_Spaces (k : regex) (w t : str) (m : nat) :
  blank w -> spaces t = [0] -> leads k t m ->
  leads (Spaces ;; k) (w ++ t) (length w + m).
Proof.
  intros Hw Ht H. induction w as [|c w IH].
  - now apply leads_Spaces_none.
  - apply blank_cons in Hw as [Hc Hw]. destruct (IH Hw) as (L & E).
    unfold leads. simpl app. rewrite matches_Spaces_Seq_cons, Hc, E.
    simpl. eauto.
Qed.

Lemma leads_Opt_some (a k : regex) (s : str) (m : nat) :
  leads (a ;; k) s m -> leads (Opt a ;; k) s m.
Proof.
  intros (L & E). unfold leads. rewrite matches_Opt_Seq, E. simpl. eauto.
Qed.

Lemma leads_Opt_none (a k : regex) (s : str) (m : nat) :
  matches (a ;; k) s = [] -> leads k s m -> leads (Opt a ;; k) s m.
Proof. intros E H. unfold leads. now rewrite matches_Opt_Seq, E. Qed.

Lemma leads_assoc (a b k : regex) (s : str) (m : nat) :
  leads (a ;; b ;; k) s m -> leads ((a ;; b) ;; k) s m.
Proof. unfold leads. now rewrite matches_Seq_assoc. Qed.

(** [\s*\n] at the end of a line that is not followed by a
    whitespace-only line: the line break read is the one of that line. *)
Lemma leads_line_end (w post : str) :
  blank w -> blank_len post = 0 ->
  leads (Spaces ;; Lit nl) (w ++ nl ++ post) (length w + 1).
Proof.
  intros Hw Hp. pose proof (matches_blank_0 _ Hp) as B.
  induction w as [|c w IH].
  - unfold leads. change ([] ++ nl ++ post) with (10%N :: post).
    rewrite matches_Spaces_Seq_cons. change (is_space 10%N) with true.
    cbv iota. rewrite B. simpl. eauto.
  - apply blank_cons in Hw as [Hc Hw]. destruct (IH Hw) as (L & E).
    unfold leads. change ((c :: w) ++ nl ++ post) with (c :: w ++ nl ++ post).
    rewrite matches_Spaces_Seq_cons, Hc, E. simpl. eauto.
Qed.

(** No comma is read where whitespace or a line break stands. *)
Lemma comma_fails (k : regex) (w t : str) :
  blank w -> matches (Lit (lit ",") ;; k) (w ++ nl ++ t) = [].
Proof.
  intros Hw. rewrite matches_Lit_Seq. change (lit ",") with [44%N].
  destruct w as [|c w]; [reflexivity|].
  apply blank_cons in Hw as [Hc _]. simpl app. cbn [prefixb].
  now rewrite (@space_neq c 44%N Hc eq_refl).
Qed.

End FirstMatch.

(** The first match, read off the form of the text one element of the
    pattern at a time. *)
Ltac lead :=
  first
    [ eapply leads_line_end; assumption
    | eapply leads_Lit; lead
    | eapply leads_Spaces; [ assumption | reflexivity | lead ]
    | eapply leads_Spaces_none; [ reflexivity | lead ]
    | eapply leads_assoc; lead
    | eapply leads_Opt_some; lead
    | eapply leads_Opt_none;
      [ solve [ reflexivity | apply comma_fails; assumption ] | lead ] ].

(** ** The forms of a declaration *)

Section Forms.
Local Open Scope re_scope.

(** The whitespace of a declaration, in the order of the [\s*] of
    pattern 1. *)
Variables w1 w2 w3 w4 w5 w6 w7 : str.
Hypothesis blank1 : blank w1.
Hypothesis blank2 : blank w2.
Hypothesis blank3 : blank w3.
Hypothesis blank4 : blank w4.
Hypothesis blank5 : blank w5.
Hypothesis blank6 : blank w6.
Hypothesis blank7 : blank w7.

(** [user.id] or [user?.id], then whitespace or [|| ''] between
    whitespace. *)
Definition value_text (q o : bool) : str :=
  lit "user" ++ opt q (lit "?") ++ lit ".id"
  ++ (if o then w4 ++ lit "||" ++ w5 ++ lit "''" ++ w6 else w4).

(** A [headers:] mapping whose only entry is the [x-user-id] entry, with
    or without a comma behind it, up to the end of its line. *)
Definition declaration (q o c : bool) : str :=
  lit "headers:" ++ w1 ++ lit "{" ++ w2 ++ lit "'x-user-id':" ++ w3
  ++ value_text q o ++ lit "}" ++ opt c (lit ",") ++ w7 ++ nl.

(** An empty [headers:] mapping up to the end of its line. *)
Definition empty_mapping (c : bool) : str :=
  lit "headers:" ++ w1 ++ lit "{" ++ w2 ++ lit "}" ++ opt c (lit ",")
  ++ w7 ++ nl.

Ltac spell :=
  unfold declaration, empty_mapping, value_text;
  cbn [opt app]; rewrite <- ?app_assoc; cbn [opt app].

Lemma declaration_leads (q o c : bool) (post : str) :
  blank_len post = 0 ->
  leads pattern1 (declaration q o c ++ post) (length (declaration q o c)).
Proof.
  intros Hp. unfold pattern1, user_id_entry.
  destruct q, o, c; spell;
    (eapply leads_eq; [lead|]);
    rewrite ?length_app; change (length nl) with 1; lia.
Qed.

Lemma empty_mapping_leads (c : bool) (post : str) :
  blank_len post = 0 ->
  leads pattern3 (empty_mapping c ++ post) (length (empty_mapping c)).
Proof.
  intros Hp. unfold pattern3.
  destruct c; spell;
    (eapply leads_eq; [lead|]);
    rewrite ?length_app; change (length nl) with 1; lia.
Qed.

(** Both forms start with [headers:], which no match that started
    earlier can read. *)
Lemma declaration_local (q o c : bool) (post : str) :
  local anything rule1 (declaration q o c ++ post).
Proof.
  apply erase_local. unfold declaration. unfold_patterns. norm_text.
  crossfree_walk anything_skipn.
Qed.

Lemma empty_mapping_local (c : bool) (post : str) :
  local anything rule3 (empty_mapping c ++ post).
Proof.
  apply erase_local. unfold empty_mapping. unfold_patterns. norm_text.
  crossfree_walk anything_skipn.
Qed.

Lemma declaration_length (q o c : bool) : 0 < length (declaration q o c).
Proof. unfold declaration. rewrite length_app. vm_compute length at 1. lia. Qed.

Lemma empty_mapping_length (c : bool) : 0 < length (empty_mapping c).
Proof. unfold empty_mapping. rewrite length_app. vm_compute length at 1. lia. Qed.

Lemma rule1_deletes_declaration (q o c : bool) (pre post : str) :
  blank_len post = 0 ->
  sub rule1 (pre ++ declaration q o c ++ post)
  = sub rule1 pre ++ sub rule1 post.
Proof.
  intros Hp.
  rewrite (sub_app (Q:=anything)) by
    (auto using rule1_sound, declaration_local, all_anything).
  f_equal.
  assert (rule1 (declaration q o c ++ post)
          = Some (length (declaration q o c), [])) as H
    by (now apply leads_erase, declaration_leads).
  rewrite (sub_hit _ _ H).
  - now rewrite skipn_exact.
  - pose proof (declaration_length q o c). rewrite length_app. lia.
Qed.

Lemma rule3_deletes_empty_mapping (c : bool) (pre post : str) :
  blank_len post = 0 ->
  sub rule3 (pre ++ empty_mapping c ++ post)
  = sub rule3 pre ++ sub rule3 post.
Proof.
  intros Hp.
  rewrite (sub_app (Q:=anything)) by
    (auto using rule3_sound, empty_mapping_local, all_anything).
  f_equal.
  assert (rule3 (empty_mapping c ++ post)
          = Some (length (empty_mapping c), [])) as H
    by (now apply leads_erase, empty_mapping_leads).
  rewrite (sub_hit _ _ H).
  - now rewrite skipn_exact.
  - pose proof (empty_mapping_length c). rewrite length_app. lia.
Qed.

End Forms.

(** ** Matches that cannot end where the text before ends *)

Section Inside.

(** The texts allowed before the point of interest, and the text at that
    point. *)
Variable Q : str -> Prop.
Hypothesis Q_skipn : forall x n, Q x -> Q (skipn n x).
Variable y : str.

(** [endfree r]: [r] cannot read the whole of a text of the class. *)
Definition endfree (r : regex) : Prop :=
  forall x, Q x -> x <> [] -> ~ In (length x) (matches r (x ++ y)).

(** A sequence, when its first part cannot end at the boundary: the
    second part starts before it. *)
Lemma crossfree_Seq_in (r1 r2 k : regex) :
  crossfree Q true r1 (Seq r2 k) y -> endfree r1 ->
  crossfree Q true r2 k y ->
  crossfree Q true (Seq r1 r2) k y.
Proof.
  intros H1 He H2 x n HQ Hne Hn Hx. simpl in Hn.
  apply in_flat_map in Hn as (n1 & Hn1 & Hn).
  apply in_map_iff in Hn as (n2 & <- & Hn2).
  rewrite (Nat.add_comm n1 n2), <- skipn_skipn.
  destruct (Nat.lt_trichotomy n1 (length x)) as [Hlt|[Heq|Hgt]].
  - rewrite skipn_app in Hn2 |- *.
    replace (n1 - length x) with 0 in * by lia. simpl skipn in *.
    apply (H2 (skipn n1 x) n2); [auto | | assumption |].
    + intros _ E. apply (f_equal (@length char)) in E.
      rewrite length_skipn in E. simpl in E. lia.
    + rewrite length_skipn; lia.
  - subst n1. exfalso. apply (He x HQ (Hne eq_refl) Hn1).
  - specialize (H1 x n1 HQ Hne Hn1 Hgt). simpl in H1.
    apply (flat_map_nil _ _ n2) in H1; [|assumption].
    simpl in H1. now destruct (matches k (skipn n2 (skipn n1 (x ++ y)))).
Qed.

(** A sequence whose first part cannot be read inside a text of the
    class at all. *)
Lemma crossfree_Seq_stop (ne : bool) (r1 r2 k : regex) :
  crossfree Q ne r1 (Seq r2 k) y ->
  (forall x n, Q x -> In n (matches r1 (x ++ y)) -> n <= length x -> False) ->
  crossfree Q ne (Seq r1 r2) k y.
Proof.
  intros H1 Hs x n HQ Hne Hn Hx. simpl in Hn.
  apply in_flat_map in Hn as (n1 & Hn1 & Hn).
  apply in_map_iff in Hn as (n2 & <- & Hn2).
  rewrite (Nat.add_comm n1 n2), <- skipn_skipn.
  destruct (Nat.le_gt_cases n1 (length x)) as [Hle|Hgt].
  - exfalso. exact (Hs x n1 HQ Hn1 Hle).
  - specialize (H1 x n1 HQ Hne Hn1 Hgt). simpl in H1.
    apply (flat_map_nil _ _ n2) in H1; [|assumption].
    simpl in H1. now destruct (matches k (skipn n2 (skipn n1 (x ++ y)))).
Qed.

Lemma spaces_all (s : str) (n : nat) :
  In n (spaces s) -> forallb is_space (firstn n s) = true.
Proof.
  revert n; induction s as [|c s IH]; simpl; intros n H.
  - destruct H as [<-|[]]. reflexivity.
  - destruct (is_space c) eqn:E.
    + apply in_app_or in H as [H|[<-|[]]]; [|reflexivity].
      apply in_map_iff in H as (m & <- & Hm). simpl. rewrite E. simpl. auto.
    + destruct H as [<-|[]]. reflexivity.
Qed.

(** The texts of the class do not consist of whitespace. *)
Hypothesis Q_solid : forall x, Q x -> x <> [] -> forallb is_space x = false.

Lemma crossfree_Spaces_in (k : regex) : crossfree Q true Spaces k y.
Proof.
  intros x n HQ Hne Hn Hx. exfalso. simpl in Hn. apply spaces_all in Hn.
  rewrite firstn_app, firstn_all2, forallb_app in Hn by lia.
  apply andb_prop in Hn as [Hn _].
  rewrite (Q_solid HQ (Hne eq_refl)) in Hn. discriminate.
Qed.

Lemma endfree_Spaces : endfree Spaces.
Proof.
  intros x HQ Hx Hn. simpl in Hn. apply spaces_all in Hn.
  rewrite firstn_exact, (Q_solid HQ Hx) in Hn. discriminate.
Qed.

Lemma endfree_Lit (l : str) : ~ Q l -> endfree (Lit l).
Proof.
  intros Hl x HQ Hx Hn. simpl in Hn.
  destruct (prefixb l (x ++ y)) eqn:E; [|easy].
  destruct Hn as [Hn|[]].
  rewrite prefixb_app_fit in E by lia.
  apply prefixb_true in E. rewrite Hn, skipn_all, app_nil_r in E.
  now subst x.
Qed.

Lemma endfree_Opt (a : regex) : endfree a -> endfree (Opt a).
Proof.
  intros Ha x HQ Hx Hn. simpl in Hn.
  apply in_app_or in Hn as [Hn|[Hn|[]]]; [now apply (Ha x)|].
  destruct x; [congruence | discriminate].
Qed.

End Inside.

(** ** The text before the first entry *)

Section EntryFree.

(** Whitespace and the comma: what pattern 2 reads before the key. *)
Definition soft (c : char) : bool := is_space c || (c =? 44)%N.

(** A text without [x-user-id] that ends in neither whitespace nor a
    comma (or is empty). *)
Definition entry_free (x : str) : Prop :=
  infixb (lit "x-user-id") x = false /\ soft (last x 0%N) = false.

Lemma entry_free_skipn (x : str) (n : nat) :
  entry_free x -> entry_free (skipn n x).
Proof.
  intros [H1 H2]. split; [now apply infixb_skipn|].
  destruct (skipn n x) as [|c s] eqn:E; [reflexivity|].
  rewrite <- E, last_skipn; [assumption|]. rewrite E. discriminate.
Qed.

Lemma all_entry_free (a : str) :
  entry_free a -> forall n, entry_free (skipn n a).
Proof. intros H n. now apply entry_free_skipn. Qed.

Lemma forallb_last (P : char -> bool) (x : str) (d : char) :
  forallb P x = true -> x <> [] -> P (last x d) = true.
Proof.
  induction x as [|c x IH]; [congruence|]. intros H _.
  simpl in H. apply andb_prop in H as [Hc Hx].
  destruct x as [|c' x]; [assumption|]. apply IH; [assumption | discriminate].
Qed.

Lemma entry_free_solid (x : str) :
  entry_free x -> x <> [] -> forallb is_space x = false.
Proof.
  intros [_ H] Hx. destruct (forallb is_space x) eqn:E; [|reflexivity].
  apply (@forallb_last _ _ 0%N E) in Hx.
  unfold soft in H. rewrite Hx in H. discriminate.
Qed.

(** The key cannot be read inside such a text. *)
Lemma entry_free_key (x y : str) (n : nat) :
  entry_free x -> In n (matches (Lit (lit "'x-user-id':")) (x ++ y)) ->
  n <= length x -> False.
Proof.
  intros [Hx _] Hn Hle. cbn [matches] in Hn.
  destruct (prefixb (lit "'x-user-id':") (x ++ y)) eqn:E; [|destruct Hn].
  destruct Hn as [<-|[]].
  rewrite prefixb_app_fit in E by assumption.
  assert (infixb (lit "'x-user-id':") x = false) as F
    by (now apply (infixb_trans (lit "x-user-id"))).
  apply infixb_prefix in F. congruence.
Qed.

End EntryFree.

(** The ways of splitting a literal across the boundary, when the text
    behind the boundary starts with whitespace or a comma. *)
Ltac soft_cases j Hne Hj P Hc :=
  first
    [ exfalso; lia
    | destruct j as [|j];
      [ first
          [ exfalso; specialize (Hne eq_refl); lia
          | exfalso; cbn [skipn prefixb] in P;
            apply andb_prop in P as [P _]; apply N.eqb_eq in P;
            rewrite <- P in Hc; vm_compute in Hc; discriminate Hc ]
      | soft_cases j Hne Hj P Hc ] ].

Ltac soft_side Hc :=
  let j := fresh "j" in
  let HQ := fresh "HQ" in
  let Hne := fresh "Hne" in
  let Hj := fresh "Hj" in
  let P := fresh "P" in
  intros j HQ Hne Hj P; cbn [length] in Hj;
  soft_cases j Hne Hj P Hc.

(** ** The forms of an entry line *)

Section EntryForms.
Local Open Scope re_scope.

(** A text starts plainly when its first character is not whitespace, a
    comma or a bar. *)
Definition starts_plain (t : str) : bool :=
  match t with
  | [] => true
  | c :: _ => negb (is_space c) && negb (c =? 44)%N && negb (c =? 124)%N
  end.

Lemma starts_plain_spaces (t : str) : starts_plain t = true -> spaces t = [0].
Proof.
  destruct t as [|c t]; [reflexivity|]. simpl. intros H.
  apply andb_prop in H as [H _]. apply andb_prop in H as [H _].
  apply negb_true_iff in H. now rewrite H.
Qed.

Lemma starts_plain_comma (k : regex) (t : str) :
  starts_plain t = true -> matches (Lit (lit ",") ;; k) t = [].
Proof.
  intros H. rewrite matches_Lit_Seq. change (lit ",") with [44%N].
  destruct t as [|c t]; [reflexivity|]. simpl in H. cbn [prefixb].
  apply andb_prop in H as [H _]. apply andb_prop in H as [_ H].
  apply negb_true_iff in H. rewrite N.eqb_sym in H. now rewrite H.
Qed.

Lemma starts_plain_bars (a k : regex) (t : str) :
  starts_plain t = true -> matches ((Lit (lit "||") ;; a) ;; k) t = [].
Proof.
  intros H. apply matches_Seq_nil. rewrite matches_Lit_Seq.
  change (lit "||") with [124%N; 124%N].
  destruct t as [|c t]; [reflexivity|]. simpl in H. cbn [prefixb].
  apply andb_prop in H as [_ H].
  apply negb_true_iff in H. rewrite N.eqb_sym in H. now rewrite H.
Qed.

Lemma leads_Opt_end (l t : str) : leads (Opt (Lit l)) (l ++ t) (length l).
Proof. unfold leads. simpl. rewrite prefixb_app. simpl. eauto. Qed.

Lemma leads_Opt_skip (l t : str) :
  matches (Lit l ;; Lit []) t = [] -> leads (Opt (Lit l)) t 0.
Proof.
  intros H. unfold leads. simpl in *.
  destruct (prefixb l t); [discriminate H | simpl; eauto].
Qed.

(** [\s*\n\s*] before a solid pattern reads a run of whitespace with a
    line break in it up to the end of the run. *)
Lemma leads_blank_lines (r : regex) (u1 u2 t : str) (m : nat) :
  blank u1 -> blank u2 -> solid r = true -> spaces t = [0] ->
  leads r t m ->
  leads (Spaces ;; Lit nl ;; Spaces ;; r) (u1 ++ nl ++ u2 ++ t)
    (length u1 + (1 + (length u2 + m))).
Proof.
  intros B1 B2 Hr Ht (L & E).
  assert (blank (u1 ++ nl ++ u2)) as B
    by (apply blank_app; [assumption|]; now apply blank_app).
  destruct (@matches_blank_lines r (u1 ++ nl ++ u2) t B Hr Ht)
    as (k & Ek & Hk).
  replace (u1 ++ nl ++ u2 ++ t) with ((u1 ++ nl ++ u2) ++ t)
    by (now rewrite <- !app_assoc).
  unfold leads. rewrite Ek, E.
  destruct k as [|k].
  - exfalso. assert (0 < 0) as F; [|lia].
    apply Hk. apply in_or_app. right. now left.
  - cbn [repeat concat map app]. eexists. f_equal.
    rewrite !length_app. change (length nl) with 1. lia.
Qed.

Lemma soft_head (c1 : bool) (u t : str) :
  blank u ->
  exists c r, opt c1 (lit ",") ++ u ++ nl ++ t = c :: r /\ soft c = true.
Proof.
  intros B. destruct c1; cbn [opt app].
  - eexists _, _. split; reflexivity.
  - destruct u as [|c u].
    + eexists _, _. split; reflexivity.
    + apply blank_cons in B as [Hc _].
      exists c. eexists. split; [reflexivity|].
      unfold soft. now rewrite Hc.
Qed.

End EntryForms.

Ltac lead2 :=
  lazymatch goal with
  | |- leads (Opt (Lit ?l)) (?l ++ _) _ => eapply leads_Opt_end
  | |- leads (Opt (Lit _)) _ _ =>
      eapply leads_Opt_skip;
      solve [ apply starts_plain_comma; assumption | reflexivity ]
  | |- leads (Seq Spaces (Seq (Lit nl) (Seq Spaces _))) _ _ =>
      eapply leads_blank_lines;
      [ assumption | assumption | reflexivity | reflexivity | lead2 ]
  | |- leads (Seq (Lit ?l) _) (?l ++ _) _ => eapply leads_Lit; lead2
  | |- leads (Seq Spaces _) (?w ++ _) _ =>
      first
        [ eapply leads_Spaces;
          [ assumption
          | solve [ apply starts_plain_spaces; assumption | reflexivity ]
          | lead2 ]
        | eapply leads_Spaces_none; [ reflexivity | lead2 ] ]
  | |- leads (Seq Spaces _) _ _ =>
      eapply leads_Spaces_none;
      [ solve [ apply starts_plain_spaces; assumption | reflexivity ]
      | lead2 ]
  | |- leads (Seq (Seq _ _) _) _ _ => eapply leads_assoc; lead2
  | |- leads (Seq (Opt (Lit ?l)) _) (?l ++ _) _ =>
      eapply leads_Opt_some; lead2
  | |- leads (Seq (Opt (Seq (Lit ?l) _)) _) (?l ++ _) _ =>
      eapply leads_Opt_some; lead2
  | |- leads (Seq (Opt _) _) _ _ =>
      eapply leads_Opt_none;
      [ solve [ apply comma_fails; assumption
              | apply starts_plain_comma; assumption
              | apply starts_plain_bars; assumption
              | reflexivity ]
      | lead2 ]
  end.

Section EntryLines.
Local Open Scope re_scope.

(** The whitespace of an entry line: before and after the line break
    that precedes the key, after the key, and inside the value. *)
Variables u1 u2 u3 u4 u5 u6 : str.
Hypothesis blank1 : blank u1.
Hypothesis blank2 : blank u2.
Hypothesis blank3 : blank u3.
Hypothesis blank4 : blank u4.
Hypothesis blank5 : blank u5.
Hypothesis blank6 : blank u6.

(** An [x-user-id] entry on a line of its own, from the comma or the
    whitespace that ends the line before it. *)
Definition entry_lines (c1 q o c2 : bool) : str :=
  opt c1 (lit ",") ++ u1 ++ nl ++ u2 ++ lit "'x-user-id':" ++ u3
  ++ value_text u4 u5 u6 q o ++ opt c2 (lit ",").

Lemma entry_lines_leads (c1 q o c2 : bool) (post : str) :
  c2 || starts_plain post = true ->
  leads pattern2 (entry_lines c1 q o c2 ++ post)
    (length (entry_lines c1 q o c2)).
Proof.
  intros Hp. unfold pattern2, user_id_entry.
  destruct c1, q, o, c2; cbn [orb] in Hp;
    unfold entry_lines, value_text;
    cbn [opt app]; rewrite <- ?app_assoc; cbn [opt app];
    (eapply leads_eq; [lead2|]);
    rewrite ?length_app; change (length nl) with 1;
    change (length (@nil char)) with 0; lia.
Qed.

(** The line starts with a comma, whitespace or the line break. *)
Lemma entry_lines_head (c1 q o c2 : bool) (post : str) :
  exists c t, entry_lines c1 q o c2 ++ post = c :: t /\ soft c = true.
Proof.
  unfold entry_lines. rewrite <- !app_assoc. now apply soft_head.
Qed.

(** No match of pattern 2 that starts in a text without [x-user-id]
    which ends in neither whitespace nor a comma reaches the line. *)
Lemma entry_lines_local (c1 q o c2 : bool) (post : str) :
  local entry_free rule2 (entry_lines c1 q o c2 ++ post).
Proof.
  apply erase_local.
  destruct (entry_lines_head c1 q o c2 post) as (c & t & -> & Hc).
  unfold_patterns. norm_text.
  apply (crossfree_Seq_in entry_free_skipn).
  - apply crossfree_Opt, crossfree_Lit. soft_side Hc.
  - apply endfree_Opt, endfree_Lit. intros [_ F]. discriminate F.
  - apply (crossfree_Seq_in entry_free_skipn).
    + apply crossfree_Spaces_in, entry_free_solid.
    + apply endfree_Spaces, entry_free_solid.
    + apply (crossfree_Seq_in entry_free_skipn).
      * apply crossfree_Lit. soft_side Hc.
      * apply endfree_Lit. intros [_ F]. discriminate F.
      * apply (crossfree_Seq_in entry_free_skipn).
        -- apply crossfree_Spaces_in, entry_free_solid.
        -- apply endfree_Spaces, entry_free_solid.
        -- apply crossfree_Seq_stop.
           ++ apply crossfree_Lit. soft_side Hc.
           ++ intros x n. apply entry_free_key.
Qed.

Lemma entry_lines_length (c1 q o c2 : bool) :
  0 < length (entry_lines c1 q o c2).
Proof.
  unfold entry_lines. rewrite !length_app. change (length nl) with 1. lia.
Qed.

(** Rule 2 deletes the first entry line of a text. *)
Lemma rule2_deletes_entry_lines (c1 q o c2 : bool) (pre post : str) :
  entry_free pre -> c2 || starts_plain post = true ->
  sub rule2 (pre ++ entry_lines c1 q o c2 ++ post) = pre ++ sub rule2 post.
Proof.
  intros Hpre Hp.
  rewrite (sub_app (Q:=entry_free)) by
    (auto using rule2_sound, entry_lines_local, all_entry_free).
  rewrite (rule2_without_user_id _ (proj1 Hpre)). f_equal.
  assert (rule2 (entry_lines c1 q o c2 ++ post)
          = Some (length (entry_lines c1 q o c2), [])) as H
    by (now apply leads_erase, entry_lines_leads).
  rewrite (sub_hit _ _ H).
  - now rewrite skipn_exact.
  - pose proof (entry_lines_length c1 q o c2). rewrite length_app. lia.
Qed.

End EntryLines.

(** ** Every form that a rule accepts *)

Section EveryForm.

(** X7: rule 1 on every form of the declaration.  A [headers:] mapping
    whose only entry is ['x-user-id': user.id], with [user?.id] for
    [user.id] or not, with [|| ''] behind the value or not, with a comma
    behind the closing brace or not, and with any whitespace where the
    pattern has [\s*], is deleted up to the end of its line wherever it
    stands, provided that no whitespace-only line follows it; the text
    before and the text after it are scanned as if each stood alone.
    When the surrounding text holds nothing that the rules look for, the
    stripper returns the surrounding text. *)
Theorem rule1_removes_every_form (w1 w2 w3 w4 w5 w6 w7 : str)
    (q o c : bool) (pre post : str) :
  blank w1 -> blank w2 -> blank w3 -> blank w4 -> blank w5 -> blank w6 ->
  blank w7 -> blank_len post = 0 ->
  sub rule1 (pre ++ declaration w1 w2 w3 w4 w5 w6 w7 q o c ++ post)
  = sub rule1 pre ++ sub rule1 post
  /\ (infixb (lit "x-user-id") (pre ++ post) = false ->
      infixb (lit "headers:") (pre ++ post) = false ->
      infixb (lit "'Content-Type'") (pre ++ post) = false ->
      remove_x_user_id_headers
        (pre ++ declaration w1 w2 w3 w4 w5 w6 w7 q o c ++ post)
      = pre ++ post).
Proof.
  intros B1 B2 B3 B4 B5 B6 B7 Hp.
  pose proof (rule1_deletes_declaration B1 B2 B3 B4 B5 B6 B7 q o c pre _ Hp)
    as E.
  split; [assumption|]. intros Hu Hh Hc.
  unfold remove_x_user_id_headers. rewrite E.
  rewrite (rule1_without_headers _ (infixb_app_l _ _ _ Hh)),
    (rule1_without_headers _ (infixb_app_r _ _ _ Hh)).
  now rewrite (rule2_without_user_id _ Hu), (rule3_without_headers _ Hh),
    (rule4_without_content_type _ Hc).
Qed.

Lemma rule1_removes_every_form_witness :
  remove_x_user_id_headers
    (call_head
     ++ declaration [] (nl ++ lit "    ") (lit " ") (lit " ") (lit " ") nl nl
          true true false
     ++ call_tail)
  = call_head ++ call_tail.
Proof.
  apply (@rule1_removes_every_form [] (nl ++ lit "    ") (lit " ") (lit " ")
           (lit " ") nl nl true true false call_head call_tail);
    reflexivity.
Defined.

(** X8: rule 3 on every form of the empty mapping.  [headers:], an
    opening and a closing brace with any whitespace between the three,
    with a comma behind or not, is deleted up to the end of its line
    wherever it stands, provided that no whitespace-only line follows
    it.  When the text holds no [x-user-id] and the surrounding text
    holds nothing else that the rules look for, the stripper returns the
    surrounding text. *)
Theorem rule3_removes_empty_mapping (w1 w2 w7 : str) (c : bool)
    (pre post : str) :
  blank w1 -> blank w2 -> blank w7 -> blank_len post = 0 ->
  sub rule3 (pre ++ empty_mapping w1 w2 w7 c ++ post)
  = sub rule3 pre ++ sub rule3 post
  /\ (infixb (lit "x-user-id") (pre ++ empty_mapping w1 w2 w7 c ++ post)
      = false ->
      infixb (lit "headers:") (pre ++ post) = false ->
      infixb (lit "'Content-Type'") (pre ++ post) = false ->
      remove_x_user_id_headers (pre ++ empty_mapping w1 w2 w7 c ++ post)
      = pre ++ post).
Proof.
  intros B1 B2 B7 Hp.
  pose proof (rule3_deletes_empty_mapping B1 B2 B7 c pre _ Hp) as E.
  split; [assumption|]. intros Hu Hh Hc.
  unfold remove_x_user_id_headers.
  rewrite (rule1_without_user_id _ Hu), (rule2_without_user_id _ Hu), E.
  rewrite (rule3_without_headers _ (infixb_app_l _ _ _ Hh)),
    (rule3_without_headers _ (infixb_app_r _ _ _ Hh)).
  now apply rule4_without_content_type.
Qed.

Lemma rule3_removes_empty_mapping_witness :
  remove_x_user_id_headers
    (call_head ++ empty_mapping (lit " ") (nl ++ lit "  ") [] true
     ++ call_tail)
  = call_head ++ call_tail.
Proof.
  apply (@rule3_removes_empty_mapping (lit " ") (nl ++ lit "  ") [] true
           call_head call_tail); reflexivity.
Defined.

(** X9: rule 2 on every form of the first entry line.  Let the text
    before hold no [x-user-id] and end in neither whitespace nor a comma.
    Then an optional comma, whitespace with a line break in it, the key
    ['x-user-id':], the value [user.id] or [user?.id], optionally
    [|| ''], the whitespace that follows and an optional comma are
    deleted, with whatever whitespace stands where the pattern has [\s*];
    the text before is kept and the text after is scanned on its own.
    The text after has to start with a character that is not whitespace,
    a comma or a bar, unless the entry ends with its comma.  When rule 1
    finds nothing in the text, the text after holds no [x-user-id], and
    rules 3 and 4 find nothing in what is left, the stripper returns the
    text without the entry line. *)
Theorem rule2_removes_first_entry (u1 u2 u3 u4 u5 u6 : str)
    (c1 q o c2 : bool) (pre post : str) :
  blank u1 -> blank u2 -> blank u3 -> blank u4 -> blank u5 -> blank u6 ->
  infixb (lit "x-user-id") pre = false ->
  is_space (last pre 0%N) || (last pre 0 =? 44)%N = false ->
  c2 || starts_plain post = true ->
  sub rule2 (pre ++ entry_lines u1 u2 u3 u4 u5 u6 c1 q o c2 ++ post)
  = pre ++ sub rule2 post
  /\ (search rule1 (pre ++ entry_lines u1 u2 u3 u4 u5 u6 c1 q o c2 ++ post)
      = false ->
      infixb (lit "x-user-id") post = false ->
      search rule3 (pre ++ post) = false ->
      search rule4 (pre ++ post) = false ->
      remove_x_user_id_headers
        (pre ++ entry_lines u1 u2 u3 u4 u5 u6 c1 q o c2 ++ post)
      = pre ++ post).
Proof.
  intros B1 B2 B3 B4 B5 B6 Hu Hl Hp.
  pose proof (@rule2_deletes_entry_lines u1 u2 u3 u4 u5 u6 B1 B2 B3 B4 B5 B6
                c1 q o c2 pre post (conj Hu Hl) Hp) as E.
  split; [assumption|]. intros H1 Hq H3 H4.
  unfold remove_x_user_id_headers.
  rewrite (sub_search_false _ _ H1), E, (rule2_without_user_id _ Hq).
  now rewrite (sub_search_false _ _ H3), (sub_search_false _ _ H4).
Qed.

(** The mapping of the example of rule 2 up to its first entry. *)
Definition mapping_head : str :=
  lit "headers: {" ++ nl ++ lit "  'Content-Type': 'application/json'".

Lemma rule2_removes_first_entry_witness :
  remove_x_user_id_headers
    (mapping_head
     ++ entry_lines [] (lit "  ") (lit " ") nl [] [] true true false false
     ++ lit "}")
  = mapping_head ++ lit "}".
Proof.
  apply (@rule2_removes_first_entry [] (lit "  ") (lit " ") nl [] []
           true true false false mapping_head (lit "}"));
    reflexivity.
Defined.

End EveryForm.

(** * Further properties of the driver *)

Section DriverMore.

Lemma str_eqb_neq (a b : str) : a <> b -> str_eqb a b = false.
Proof.
  intros H. destruct (str_eqb a b) eqn:E; [|reflexivity].
  apply str_eqb_eq in E. contradiction.
Qed.

Lemma update_same (d : str -> file_state) (path : str) (f : file_state) :
  update d path f path = f.
Proof. unfold update. now rewrite str_eqb_refl. Qed.

Lemma update_other (d : str -> file_state) (path p : str) (f : file_state) :
  p <> path -> update d path f p = d p.
Proof. intros H. unfold update. now rewrite (str_eqb_neq H). Qed.

Ltac run_cases w file content :=
  unfold run, main, try_except, rewrite_file, bind, read_file, write_file,
    print, sys_exit, advanced; simpl;
  destruct (disk w file) as [content|?msg] eqn:?Hd; simpl;
  [ destruct (str_eqb content (remove_x_user_id_headers content)) eqn:?Hc;
    simpl;
    [ | destruct (write_fault w file (remove_x_user_id_headers content))
          as [[?msg ?remains]|] eqn:?Hw; simpl ]
  | ].

(** X10: whatever happens in a run, every file other than the one named
    by the first argument holds afterwards what it held before. *)
Theorem other_files_untouched (program file : str) (extra : list str)
    (w : World) (p : str) :
  p <> file ->
  disk (snd (run (program :: file :: extra) w)) p = disk w p.
Proof.
  intros Hp. run_cases w file content; auto using update_other.
Qed.

Lemma other_files_untouched_witness :
  disk (snd (run [lit "remove-x-user-id.py"; lit "api.ts"]
               (one_file (lit "api.ts") rule2_example))) (lit "b.ts")
  = disk (one_file (lit "api.ts") rule2_example) (lit "b.ts").
Proof.
  apply (@other_files_untouched (lit "remove-x-user-id.py") (lit "api.ts") []
           (one_file (lit "api.ts") rule2_example) (lit "b.ts")).
  discriminate.
Defined.

(** After a run with status 0 the file holds the stripped text. *)
Lemma run_status_zero (program file : str) (extra : list str) (w : World) :
  fst (run (program :: file :: extra) w) = 0 ->
  exists content,
    disk w file = Text content
    /\ disk (snd (run (program :: file :: extra) w)) file
       = Text (remove_x_user_id_headers content).
Proof.
  run_cases w file content; intros H; try discriminate H;
    exists content; split; auto using update_same.
  apply str_eqb_eq in Hc. now rewrite Hd, <- Hc.
Qed.

(** X11: exit status 0 is a promise about the file: it could be read, it
    now holds the stripped form of what it held, and the line printed is
    the "no changes" line or the confirmation line. *)
Theorem success_means_stripped (program file : str) (extra : list str)
    (w : World) :
  fst (run (program :: file :: extra) w) = 0 ->
  exists content,
    disk w file = Text content
    /\ disk (snd (run (program :: file :: extra) w)) file
       = Text (remove_x_user_id_headers content)
    /\ (stdout (snd (run (program :: file :: extra) w))
        = stdout w ++ [unchanged_line file]
        \/ stdout (snd (run (program :: file :: extra) w))
           = stdout w ++ [fixed_line file]).
Proof.
  intros H. destruct (run_status_zero program file extra w H)
    as (content & Hd & Hw).
  exists content. repeat split; try assumption.
  revert H. clear Hw. run_cases w file content'; intros H;
    try discriminate H; auto.
Qed.

Lemma success_means_stripped_witness :
  exists content,
    disk (one_file (lit "api.ts") rule2_example) (lit "api.ts") = Text content
    /\ disk (snd (run [lit "remove-x-user-id.py"; lit "api.ts"]
                    (one_file (lit "api.ts") rule2_example))) (lit "api.ts")
       = Text (remove_x_user_id_headers content)
    /\ (stdout (snd (run [lit "remove-x-user-id.py"; lit "api.ts"]
                       (one_file (lit "api.ts") rule2_example)))
        = stdout (one_file (lit "api.ts") rule2_example)
          ++ [unchanged_line (lit "api.ts")]
        \/ stdout (snd (run [lit "remove-x-user-id.py"; lit "api.ts"]
                          (one_file (lit "api.ts") rule2_example)))
           = stdout (one_file (lit "api.ts") rule2_example)
             ++ [fixed_line (lit "api.ts")]).
Proof.
  apply (@success_means_stripped (lit "remove-x-user-id.py") (lit "api.ts") []
           (one_file (lit "api.ts") rule2_example)).
  reflexivity.
Defined.

(** Whether the text changes is whether a pattern is found. *)
Lemma changed_iff_found (content : str) :
  str_eqb content (remove_x_user_id_headers content) = settled content.
Proof.
  destruct (settled content) eqn:E.
  - rewrite (settled_fixed _ E). apply str_eqb_refl.
  - apply str_eqb_neq. intros F. symmetry in F.
    apply fixed_settled in F. congruence.
Qed.

(** A file in which no pattern is found is read and left alone. *)
Lemma run_settled (program file : str) (extra : list str) (w : World)
    (content : str) :
  disk w file = Text content -> settled content = true ->
  run (program :: file :: extra) w
  = (0, advanced w (disk w) [unchanged_line file] [Read file]).
Proof.
  intros Hd Hs. pose proof (changed_iff_found content) as C.
  unfold run, main, try_except, rewrite_file, bind, read_file, write_file,
    print, sys_exit, advanced; simpl.
  rewrite Hd; simpl. now rewrite C, Hs.
Qed.

(** X12: the report is true to the patterns.  When none of the four
    patterns is found in the file, the run prints the "no changes" line
    and attempts no write; when one is found, the run attempts to write
    the stripped text and prints the confirmation or the error line,
    never the "no changes" line. *)
Theorem report_follows_patterns (program file : str) (extra : list str)
    (w : World) (content : str) :
  disk w file = Text content ->
  let w' := snd (run (program :: file :: extra) w) in
  (settled content = true ->
   run (program :: file :: extra) w
   = (0, advanced w (disk w) [unchanged_line file] [Read file]))
  /\ (settled content = false ->
      trace w'
      = trace w ++ [Read file; Write file (remove_x_user_id_headers content)]
      /\ exists line,
           stdout w' = stdout w ++ [line]
           /\ line <> unchanged_line file
           /\ (line = fixed_line file
               \/ exists msg, line = error_line file msg)).
Proof.
  intros Hd w'. subst w'. split; [now apply run_settled|].
  pose proof (changed_iff_found content) as C.
  unfold run, main, try_except, rewrite_file, bind, read_file, write_file,
    print, sys_exit, advanced; simpl.
  rewrite Hd; simpl. rewrite C. intros ->; simpl.
  destruct (write_fault w file (remove_x_user_id_headers content))
    as [[msg remains]|]; simpl; rewrite <- app_assoc;
    (split; [reflexivity|]).
  - exists (error_line file msg). repeat split; [discriminate|].
    right. now exists msg.
  - exists (fixed_line file). repeat split; [discriminate|]. now left.
Qed.

Lemma report_follows_patterns_witness :
  settled rule2_example = false
  /\ trace (snd (run [lit "remove-x-user-id.py"; lit "api.ts"]
                   (one_file (lit "api.ts") rule2_example)))
     = [Read (lit "api.ts");
        Write (lit "api.ts") (remove_x_user_id_headers rule2_example)].
Proof.
  split; [reflexivity|].
  exact (proj1 (proj2 (@report_follows_patterns (lit "remove-x-user-id.py")
                         (lit "api.ts") []
                         (one_file (lit "api.ts") rule2_example)
                         rule2_example eq_refl) eq_refl)).
Defined.

(** X13: running the program again.  After a run that ended with status 0,
    if no pattern is found in the stripped text, a second run on the world
    the first one left reads the file, finds nothing to change, writes
    nothing and prints the "no changes" line. *)
Theorem second_run_changes_nothing (program file : str) (extra : list str)
    (w : World) (content : str) :
  disk w file = Text content ->
  fst (run (program :: file :: extra) w) = 0 ->
  settled (remove_x_user_id_headers content) = true ->
  let w1 := snd (run (program :: file :: extra) w) in
  run (program :: file :: extra) w1
  = (0, advanced w1 (disk w1) [unchanged_line file] [Read file]).
Proof.
  intros Hd H0 Hs w1.
  destruct (run_status_zero program file extra w H0)
    as (content' & Hd' & H1).
  rewrite Hd in Hd'. injection Hd' as <-.
  now apply run_settled with (content := remove_x_user_id_headers content).
Qed.

Lemma second_run_changes_nothing_witness :
  run [lit "remove-x-user-id.py"; lit "api.ts"]
    (snd (run [lit "remove-x-user-id.py"; lit "api.ts"]
            (one_file (lit "api.ts") rule2_example)))
  = (0, advanced
          (snd (run [lit "remove-x-user-id.py"; lit "api.ts"]
                  (one_file (lit "api.ts") rule2_example)))
          (disk (snd (run [lit "remove-x-user-id.py"; lit "api.ts"]
                        (one_file (lit "api.ts") rule2_example))))
          [unchanged_line (lit "api.ts")] [Read (lit "api.ts")]).
Proof.
  exact (@second_run_changes_nothing (lit "remove-x-user-id.py")
           (lit "api.ts") [] (one_file (lit "api.ts") rule2_example)
           rule2_example eq_refl eq_refl eq_refl).
Defined.

(** X14: a run that fails.  When the file cannot be read, nothing is
    written and no file changes.  When the write of the stripped text
    fails, the file is left as the failed write left it, and the error
    line is printed in place of the confirmation line.  Either way the
    exit status is 1. *)
Theorem failed_run_effects (program file : str) (extra : list str)
    (w : World) (msg : str) :
  (disk w file = Unreadable msg ->
   run (program :: file :: extra) w
   = (1, advanced w (disk w) [error_line file msg] [Read file]))
  /\ (forall content remains,
        disk w file = Text content ->
        settled content = false ->
        write_fault w file (remove_x_user_id_headers content)
        = Some (msg, remains) ->
        run (program :: file :: extra) w
        = (1, advanced w (update (disk w) file remains)
                [error_line file msg]
                [Read file;
                 Write file (remove_x_user_id_headers content)])).
Proof.
  split.
  - intros Hd.
    unfold run, main, try_except, rewrite_file, bind, read_file, print,
      sys_exit, advanced; simpl.
    now rewrite Hd.
  - intros content remains Hd Hs Hw.
    pose proof (changed_iff_found content) as C.
    unfold run, main, try_except, rewrite_file, bind, read_file, write_file,
      print, sys_exit, advanced; simpl.
    rewrite Hd; simpl. rewrite C, Hs; simpl. rewrite Hw; simpl.
    now rewrite <- app_assoc.
Qed.

(** A world in which the file cannot be written. *)
Definition read_only (path content : str) : World :=
  {| disk := fun p => if str_eqb p path then Text content
                      else Unreadable (lit "No such file or directory");
     write_fault := fun _ _ => Some (lit "Permission denied", Text content);
     stdout := [];
     trace := [] |}.

Lemma failed_run_effects_witness :
  run [lit "remove-x-user-id.py"; lit "b.ts"]
    (one_file (lit "api.ts") rule2_example)
  = (1, advanced (one_file (lit "api.ts") rule2_example)
          (disk (one_file (lit "api.ts") rule2_example))
          [error_line (lit "b.ts") (lit "No such file or directory")]
          [Read (lit "b.ts")])
  /\ run [lit "remove-x-user-id.py"; lit "api.ts"]
       (read_only (lit "api.ts") rule2_example)
     = (1, advanced (read_only (lit "api.ts") rule2_example)
             (update (disk (read_only (lit "api.ts") rule2_example))
                (lit "api.ts") (Text rule2_example))
             [error_line (lit "api.ts") (lit "Permission denied")]
             [Read (lit "api.ts");
              Write (lit "api.ts")
                (remove_x_user_id_headers rule2_example)]).
Proof.
  split.
  - exact (proj1 (@failed_run_effects (lit "remove-x-user-id.py")
                    (lit "b.ts") [] (one_file (lit "api.ts") rule2_example)
                    (lit "No such file or directory")) eq_refl).
  - exact (proj2 (@failed_run_effects (lit "remove-x-user-id.py")
                    (lit "api.ts") []
                    (read_only (lit "api.ts") rule2_example)
                    (lit "Permission denied"))
             rule2_example (Text rule2_example) eq_refl eq_refl eq_refl).
Defined.

End DriverMore.
